(** * The build harness of revel (harness/build.go)

    A shallow embedding of [calcImportAliases], [addAlias],
    [makePackageAlias], [containsValue], [newCompileError] and the retry
    loop of [Build], followed by the properties stated for them.

    Go strings and byte slices are sequences of bytes: they are modelled by
    [string] (a list of 8-bit [ascii]).  A Go [map[string]string] is a
    [gmap string string].  External commands, the file system and the
    configuration are oracles gathered in a record; every external action
    performed by [Build] is recorded in a trace. *)

From Stdlib Require Import String Ascii ZArith List Lia.
From stdpp Require Import base option list gmap strings pretty sorting.


(** ** Data model *)

(** Modelled from the spec: the declarations of [TypeExpr], [MethodArg],
    [MethodSpec], [TypeInfo] and [SourceInfo] live in harness/reflect.go,
    which is not part of the sources at hand.  The fields are those of the
    data model; build.go reads [PkgName], [ImportPath], [Args],
    [PackageName], [MethodSpecs], [ControllerSpecs], [TestSuites] and
    [InitImportPaths]. *)
Module TypeExpr.
Record t := mk { Expr : string; PkgName : string }.
End TypeExpr.

Module MethodArg.
Record t := mk { Name : string; ImportPath : string; TypeExpr : TypeExpr.t }.
End MethodArg.

Module MethodSpec.
Record t := mk {
    Name : string;
    Args : list MethodArg.t;
    RenderCalls : list (Z * list string)
  }.
End MethodSpec.

Module TypeInfo.
Record t := mk {
    StructName : string;
    ImportPath : string;
    PackageName : string;
    MethodSpecs : list MethodSpec.t
  }.
End TypeInfo.

Module SourceInfo.
Record t := mk {
    ControllerSpecs : list TypeInfo.t;
    TestSuites : list TypeInfo.t;
    ValidationKeys : list (string * list (Z * string));
    InitImportPaths : list string
  }.
End SourceInfo.

(** ** The import alias resolver *)

(** [containsValue]: some entry of the map holds [val]. *)
Definition containsValue (m : gmap string string) (val : string) : bool :=
  existsb (fun kv => String.eqb kv.2 val) (map_to_list m).

(** [fmt.Sprintf("%s%d", pkgName, i)] for a non-negative counter. *)
Definition sprintf_sd (pkgName : string) (i : nat) : string :=
  pkgName +:+ pretty i.

(** The loop of [makePackageAlias]:
    [for containsValue(aliases, alias) { alias = Sprintf(pkgName, i); i++ }].
    The recursion is bounded by [fuel]; [makePackageAlias_loop_exits] shows
    that [size aliases] iterations always reach the exit of the loop. *)
Fixpoint makePackageAlias_loop (fuel : nat) (aliases : gmap string string)
    (pkgName : string) (i : nat) (alias : string) : string :=
  if containsValue aliases alias then
    match fuel with
    | O => alias
    | S fuel' =>
        makePackageAlias_loop fuel' aliases pkgName (S i) (sprintf_sd pkgName i)
    end
  else alias.

Definition makePackageAlias (aliases : gmap string string) (pkgName : string)
    : string :=
  makePackageAlias_loop (size aliases) aliases pkgName 0 pkgName.

Definition addAlias (aliases : gmap string string) (importPath pkgName : string)
    : gmap string string :=
  match aliases !! importPath with
  | Some _ => aliases
  | None => <[importPath := makePackageAlias aliases pkgName]> aliases
  end.

(** The body of the loop over [methSpec.Args]. *)
Definition addArgAlias (aliases : gmap string string) (methArg : MethodArg.t)
    : gmap string string :=
  if String.eqb (MethodArg.ImportPath methArg) "" then aliases
  else addAlias aliases (MethodArg.ImportPath methArg)
         (TypeExpr.PkgName (MethodArg.TypeExpr methArg)).

Definition addMethodAliases (aliases : gmap string string)
    (methSpec : MethodSpec.t) : gmap string string :=
  foldl addArgAlias aliases (MethodSpec.Args methSpec).

(** The body of the loop over [specs]. *)
Definition addSpecAliases (aliases : gmap string string) (spec : TypeInfo.t)
    : gmap string string :=
  foldl addMethodAliases
    (addAlias aliases (TypeInfo.ImportPath spec) (TypeInfo.PackageName spec))
    (TypeInfo.MethodSpecs spec).

(** The body of the loop over [src.InitImportPaths]. *)
Definition addInitImport (aliases : gmap string string) (importPath : string)
    : gmap string string :=
  match aliases !! importPath with
  | Some _ => aliases
  | None => <[importPath := "_"]> aliases
  end.

(** The table after the loops over [typeArrays], before the init imports. *)
Definition typeAliases (src : SourceInfo.t) : gmap string string :=
  foldl (foldl addSpecAliases) (∅ : gmap string string)
    [SourceInfo.ControllerSpecs src; SourceInfo.TestSuites src].

Definition calcImportAliases (src : SourceInfo.t) : gmap string string :=
  foldl addInitImport (typeAliases src) (SourceInfo.InitImportPaths src).


(** ** Characters and string helpers *)

Definition dquote : ascii := "034"%char.
Definition newline : ascii := "010"%char.
Definition nl : string := String newline "".

Definition isDigit (c : ascii) : bool :=
  (48 <=? nat_of_ascii c)%nat && (nat_of_ascii c <=? 57)%nat.

(** The longest prefix of [s] whose bytes satisfy [p], and what follows:
    how a greedy character-class repetition consumes its input. *)
Fixpoint span (p : ascii -> bool) (s : string) : string * string :=
  match s with
  | EmptyString => (EmptyString, EmptyString)
  | String c s' =>
      if p c then let (run, rest) := span p s' in (String c run, rest)
      else (EmptyString, s)
  end.

(** Consume the literal [lit] at the head of [s]. *)
Fixpoint stripPrefix (lit s : string) : option string :=
  match lit, s with
  | EmptyString, _ => Some s
  | String a lit', String b s' =>
      if Ascii.eqb a b then stripPrefix lit' s' else None
  | String _ _, EmptyString => None
  end.

Definition isEmpty (s : string) : bool :=
  match s with EmptyString => true | _ => false end.

Fixpoint joinWith (sep : string) (l : list string) : string :=
  match l with
  | [] => EmptyString
  | [x] => x
  | x :: rest => x +:+ sep +:+ joinWith sep rest
  end.

(** [fmt.Sprintln] on string operands: blanks between, newline after. *)
Definition Sprintln (operands : list string) : string :=
  joinWith " " operands +:+ nl.

(** [%v] of a slice of strings. *)
Definition showArgs (args : list string) : string :=
  "[" +:+ joinWith " " args +:+ "]".

(** ** The missing-import pattern

    [importErrorPattern] is [import QUOTE ([^QUOTE]+) QUOTE : cannot find package]
    where QUOTE is the double-quote byte.  The class excludes the byte that
    must follow it, so at a given start there is one way to match. *)
Definition importErrorPrefix : string := "import " +:+ String dquote "".
Definition importErrorSuffix : string := String dquote ": cannot find package".

Definition matchImportErrorAt (s : string) : option string :=
  match stripPrefix importErrorPrefix s with
  | None => None
  | Some r =>
      let g := span (fun c => negb (Ascii.eqb c dquote)) r in
      if isEmpty g.1 then None
      else match stripPrefix importErrorSuffix g.2 with
           | Some _ => Some g.1
           | None => None
           end
  end.

(** [importErrorPattern.FindStringSubmatch(s)], reduced to its group 1:
    the leftmost start at which the pattern matches. *)
Fixpoint findImportError (s : string) : option string :=
  match matchImportErrorAt s with
  | Some pkgName => Some pkgName
  | None =>
      match s with
      | EmptyString => None
      | String _ s' => findImportError s'
      end
  end.

(** ** The diagnostic parser *)

(** Modelled from the spec: [revel.Error] is declared in the framework
    package, outside the sources at hand; the fields are those of the error
    object surfaced to the caller. *)
Module Error.
Record t := mk {
  SourceType : string;
  Title : string;
  Path : string;
  Description : string;
  Line : Z;
  SourceLines : list string;
  MetaError : string
}.
End Error.

(** The groups 1 to 4 of a match of the diagnostic pattern of
    [newCompileError]: at a line start (multi-line mode), group 1 is a
    non-empty run of bytes other than colon and hash, then a colon, group 2
    is a non-empty run of digits, then a colon, the optional group 3 is
    digits and a colon, then a blank, and group 4 is the rest of the line. *)
Record ErrorMatch := mkErrorMatch {
  group1 : string;
  group2 : string;
  group3 : option string;
  group4 : string
}.

Definition notColonHash (c : ascii) : bool :=
  negb (Ascii.eqb c ":" || Ascii.eqb c "#").

Definition notNewline (c : ascii) : bool := negb (Ascii.eqb c newline).

(** The optional group 3 followed by the blank, tried greedily. *)
Definition matchColumn (s : string) : option (string * string) :=
  let d := span isDigit s in
  if isEmpty d.1 then None
  else match stripPrefix ":" d.2 with
       | None => None
       | Some r =>
           match stripPrefix " " r with
           | None => None
           | Some r' => Some (d.1 +:+ ":", r')
           end
       end.

(** The pattern matched at a line start [s].  Every repetition is followed
    by a byte outside its class, so the greedy choice is the only one. *)
Definition matchErrorAt (s : string) : option ErrorMatch :=
  let p := span notColonHash s in
  if isEmpty p.1 then None
  else match stripPrefix ":" p.2 with
  | None => None
  | Some r1 =>
      let l := span isDigit r1 in
      if isEmpty l.1 then None
      else match stripPrefix ":" l.2 with
      | None => None
      | Some r2 =>
          match matchColumn r2 with
          | Some (col, r3) =>
              Some (mkErrorMatch p.1 l.1 (Some col) (span notNewline r3).1)
          | None =>
              match stripPrefix " " r2 with
              | None => None
              | Some r3 =>
                  Some (mkErrorMatch p.1 l.1 None (span notNewline r3).1)
              end
          end
      end
  end.

(** [FindSubmatch]: the leftmost line start ([bol]: start of the text or just
    after a newline) at which the pattern matches. *)
Fixpoint findErrorFrom (bol : bool) (s : string) : option ErrorMatch :=
  match (if bol then matchErrorAt s else None) with
  | Some m => Some m
  | None =>
      match s with
      | EmptyString => None
      | String c s' => findErrorFrom (Ascii.eqb c newline) s'
      end
  end.

Definition findError (output : string) : option ErrorMatch :=
  findErrorFrom true output.

(** [strconv.Atoi] on a non-empty run of decimal digits, for a 64-bit [int]:
    the value, or the largest [int] when it does not fit (the range error
    is dropped by the caller). *)
Definition maxInt : Z := 9223372036854775807.

Fixpoint digitsValue (acc : Z) (s : string) : Z :=
  match s with
  | EmptyString => acc
  | String c s' => digitsValue (10 * acc + (Z.of_nat (nat_of_ascii c) - 48)) s'
  end.

Definition Atoi (s : string) : Z := Z.min (digitsValue 0 s) maxInt.

(** ** Events and outcomes *)

Inductive Logger := ERROR | TRACE.

Inductive Event :=
| Log (logger : Logger) (msg : string)
| RemoveAll (path : string)
| Mkdir (path : string)
| Create (path : string)
| WriteString (path content : string)
| Close (path : string)
| Exec (args : list string).

(** How a call of [Build] ends: the binary, a compile error, or the exit of
    the process by [Fatalf]/[Fatalln]. *)
Inductive Outcome :=
| Built (binName : string)
| Failed (compileError : Error.t)
| Exited.

(** ** The environment of a build

    What [Build] reads from outside: the globals of the framework, the
    configuration, the file system, the standard library helpers whose text
    is not reproduced here, and the result of every command it runs.  An
    error result is the text of the error. *)
Record World := mkWorld {
  AppPath : string;
  ImportPath : string;
  BasePath : string;
  GOOS : string;
  (** [ProcessSource(revel.CodePaths)]: a compile error or the source info. *)
  ProcessSource : Error.t + SourceInfo.t;
  (** [revel.Config.String(key)]: the value when the key is found. *)
  Config_String : string -> option string;
  path_Join : list string -> string;
  path_Base : string -> string;
  filepath_Abs : string -> string;
  (** [revel.ReadLines]: an error or the lines of the file. *)
  ReadLines : string -> string + list string;
  os_RemoveAll : string -> option string;
  os_Mkdir : string -> option string;
  os_Create : string -> option string;
  file_WriteString : string -> string -> option string;
  (** [exec.LookPath]: an error or the path of the executable. *)
  exec_LookPath : string -> string + string;
  (** [ctx.Import(path, srcDir, FindOnly)]: an error or [pkg.BinDir]. *)
  build_Import : string -> string + string;
  (** [CombinedOutput] of the [k]-th command run: its output, and whether
      it succeeded ([err == nil]). *)
  CombinedOutput : nat -> list string -> string * bool;
  (** The text generated by [REGISTER_CONTROLLERS] after its import lines;
      it prints type expressions through code of harness/reflect.go. *)
  templateBody : SourceInfo.t -> gmap string string -> string
}.

(** ** newCompileError *)

Definition withMetaError (e : Error.t) (metaError : string) : Error.t :=
  Error.mk (Error.SourceType e) (Error.Title e) (Error.Path e)
    (Error.Description e) (Error.Line e) (Error.SourceLines e) metaError.

Definition withSourceLines (e : Error.t) (lines : list string) : Error.t :=
  Error.mk (Error.SourceType e) (Error.Title e) (Error.Path e)
    (Error.Description e) (Error.Line e) lines (Error.MetaError e).

(** The error log lines written, and the error returned. *)
Definition newCompileError (w : World) (output : string)
    : list Event * Error.t :=
  match findError output with
  | None =>
      ([Log ERROR (Sprintln ["Failed to parse build errors:" +:+ nl; output])],
       Error.mk "Go code" "Go Compilation Error" EmptyString
         "See console for build error." 0 [] EmptyString)
  | Some errorMatch =>
      let relFilename := group1 errorMatch in
      let absFilename := filepath_Abs w relFilename in
      let line := Atoi (group2 errorMatch) in
      let description := group4 errorMatch in
      let compileError :=
        Error.mk "Go code" "Go Compilation Error" relFilename description
          line [] EmptyString in
      match ReadLines w absFilename with
      | inl err =>
          let metaError := absFilename +:+ ": " +:+ err in
          ([Log ERROR (Sprintln [metaError])],
           withMetaError compileError metaError)
      | inr fileStr => ([], withSourceLines compileError fileStr)
      end
  end.

(** ** The generated entry point *)

Definition tab : string := String "009"%char "".
Definition quoted (s : string) : string :=
  String dquote s +:+ String dquote "".

(** The template up to the range over [ImportPaths]. *)
Definition templateHead : string :=
  "package main" +:+ nl +:+ nl +:+ "import (" +:+ nl
  +:+ tab +:+ quoted "flag" +:+ nl
  +:+ tab +:+ quoted "reflect" +:+ nl
  +:+ tab +:+ quoted "github.com/robfig/revel".

(** One turn of the range: a newline, a tab, the alias, the quoted path. *)
Definition importLine (kv : string * string) : string :=
  nl +:+ tab +:+ kv.2 +:+ " " +:+ quoted kv.1.

Definition keyLe (a b : string * string) : Prop :=
  Is_true (String.leb a.1 b.1).

(** A range over a map visits the keys in increasing order. *)
Definition sortedEntries (m : gmap string string) : list (string * string) :=
  merge_sort keyLe (map_to_list m).

Definition renderImports (m : gmap string string) : string :=
  foldr (fun kv acc => importLine kv +:+ acc) EmptyString (sortedEntries m).

Definition ExecuteTemplate (w : World) (sourceInfo : SourceInfo.t)
    (importPaths : gmap string string) : string :=
  templateHead +:+ renderImports importPaths
  +:+ templateBody w sourceInfo importPaths.

(** ** Build *)

(** A computation that logs events and either goes on with a value or stops
    the call with an outcome. *)
Definition Run (A : Type) : Type := list Event * (Outcome + A).

Definition ret {A} (a : A) : Run A := ([], inr a).
Definition emit (e : Event) : Run unit := ([e], inr tt).
Definition stop {A} (o : Outcome) : Run A := ([], inl o).
Definition bind {A B} (m : Run A) (f : A -> Run B) : Run B :=
  match m.2 with
  | inl o => (m.1, inl o)
  | inr a => (m.1 ++ (f a).1, (f a).2)
  end.

Notation "m ;;; k" := (bind m (fun _ => k))
  (at level 100, right associativity).

(** [revel.ERROR.Fatalf]: the message is logged and the process exits. *)
Definition fatal {A} (msg : string) : Run A :=
  emit (Log ERROR msg) ;;; stop Exited.

(** Lines 30 to 33: the db.import path joins the init imports. *)
Definition addDbImport (w : World) (sourceInfo : SourceInfo.t)
    : SourceInfo.t :=
  match Config_String w "db.import" with
  | Some dbImportPath =>
      SourceInfo.mk (SourceInfo.ControllerSpecs sourceInfo)
        (SourceInfo.TestSuites sourceInfo)
        (SourceInfo.ValidationKeys sourceInfo)
        (SourceInfo.InitImportPaths sourceInfo ++ [dbImportPath])
  | None => sourceInfo
  end.

(** Lines 35 to 41. *)
Definition registerControllerSource (w : World) (sourceInfo : SourceInfo.t)
    : string :=
  ExecuteTemplate w sourceInfo (calcImportAliases sourceInfo).

Definition tmpPath (w : World) : string := path_Join w [AppPath w; "tmp"].
Definition mainGo (w : World) : string := path_Join w [tmpPath w; "main.go"].

(** Lines 43 to 63: the scratch directory and main.go. *)
Definition Build_prepare (w : World) (source : string) : Run unit :=
  emit (RemoveAll (tmpPath w)) ;;;
  match os_RemoveAll w (tmpPath w) with
  | Some err => emit (Log ERROR (Sprintln ["Failed to remove tmp dir:"; err]))
  | None => ret tt
  end ;;;
  emit (Mkdir (tmpPath w)) ;;;
  match os_Mkdir w (tmpPath w) with
  | Some err => fatal ("Failed to make tmp directory: " +:+ err)
  | None => ret tt
  end ;;;
  emit (Create (mainGo w)) ;;;
  match os_Create w (mainGo w) with
  | Some err => fatal ("Failed to create main.go: " +:+ err)
  | None => ret tt
  end ;;;
  emit (WriteString (mainGo w) source) ;;;
  match file_WriteString w (mainGo w) source with
  | Some err => fatal ("Failed to write to main.go: " +:+ err)
  | None => ret tt
  end.

(** Lines 65 to 83: the build tags, the go executable, the binary name. *)
Definition Build_toolchain (w : World) : Run (string * string * string) :=
  let buildTags := default EmptyString (Config_String w "build.tags") in
  match exec_LookPath w "go" with
  | inl _ => fatal "Go executable not found in PATH."
  | inr goPath =>
      match build_Import w (ImportPath w) with
      | inl _ => fatal (Sprintln ["Failure importing"; ImportPath w])
      | inr binDir =>
          let binName := path_Join w [binDir; path_Base w (BasePath w)] in
          let binName :=
            if String.eqb (GOOS w) "windows" then binName +:+ ".exe"
            else binName in
          ret (goPath, buildTags, binName)
      end
  end.

Definition buildArgs (w : World) (goPath buildTags binName : string)
    : list string :=
  [goPath; "build"; "-tags"; buildTags; "-o"; binName;
   path_Join w [ImportPath w; "app"; "tmp"]].

Definition getArgs (goPath pkgName : string) : list string :=
  [goPath; "get"; pkgName].

(** Lines 87 to 121: one turn of the retry loop.  [gotten], a map to the
    empty struct, holds the packages already fetched; [k] is the number of
    commands run so far.  The turn either ends the call or goes on with the
    next state. *)
Definition Build_iteration (w : World) (goPath buildTags binName : string)
    (gotten : gmap string unit) (k : nat) : Run (gmap string unit * nat) :=
  let args := buildArgs w goPath buildTags binName in
  let r := CombinedOutput w k args in
  let output := r.1 in
  emit (Log TRACE (Sprintln ["Exec:"; showArgs args])) ;;;
  emit (Exec args) ;;;
  if r.2 then stop (Built binName)
  else
    emit (Log TRACE (Sprintln [output])) ;;;
    match findImportError output with
    | None =>
        ((newCompileError w output).1, inl (Failed (newCompileError w output).2))
    | Some pkgName =>
        match gotten !! pkgName with
        | Some _ =>
          ((newCompileError w output).1,
           inl (Failed (newCompileError w output).2))
        | None =>
          let gargs := getArgs goPath pkgName in
          let g := CombinedOutput w (S k) gargs in
          emit (Log TRACE (Sprintln ["Exec:"; showArgs gargs])) ;;;
          emit (Exec gargs) ;;;
          if g.2 then ret (<[pkgName := tt]> gotten, S (S k))
          else
            emit (Log TRACE (Sprintln [g.1])) ;;;
            ((newCompileError w output).1,
             inl (Failed (newCompileError w output).2))
        end
    end.

(** Lines 85 to 122: the retry loop.  [None]: the loop is still running
    when the fuel is spent. *)
Fixpoint Build_loop (fuel : nat) (w : World)
    (goPath buildTags binName : string) (gotten : gmap string unit) (k : nat)
    : option (list Event * Outcome) :=
  match fuel with
  | O => None
  | S fuel' =>
      let it := Build_iteration w goPath buildTags binName gotten k in
      match it.2 with
      | inl o => Some (it.1, o)
      | inr (gotten', k') =>
          match Build_loop fuel' w goPath buildTags binName gotten' k' with
          | Some (evs, o) => Some (it.1 ++ evs, o)
          | None => None
          end
      end
  end.

(** Lines 30 to 83, once the sources are analysed: what is done before
    the loop, and the go executable, build tags and binary name it uses. *)
Definition Build_setup (w : World) (sourceInfo0 : SourceInfo.t)
    : Run (string * string * string) :=
  let sourceInfo := addDbImport w sourceInfo0 in
  Build_prepare w (registerControllerSource w sourceInfo) ;;;
  Build_toolchain w.

(** [Build]: the events in order and the way the call ends.  The deferred
    [Close] of main.go runs when the call returns, not when it exits. *)
Definition Build (fuel : nat) (w : World) : option (list Event * Outcome) :=
  match ProcessSource w with
  | inl compileError => Some ([], Failed compileError)
  | inr sourceInfo0 =>
      let pre := Build_setup w sourceInfo0 in
      match pre.2 with
      | inl o => Some (pre.1, o)
      | inr (goPath, buildTags, binName) =>
          match Build_loop fuel w goPath buildTags binName ∅ 0 with
          | Some (evs, o) => Some (pre.1 ++ evs ++ [Close (mainGo w)], o)
          | None => None
          end
      end
  end.

(** ** Vocabulary of the statements *)

(** The type infos in the order [calcImportAliases] visits them. *)
Definition typeInfos (src : SourceInfo.t) : list TypeInfo.t :=
  SourceInfo.ControllerSpecs src ++ SourceInfo.TestSuites src.

(** The import paths of the method arguments of a type that have one. *)
Definition argPaths (spec : TypeInfo.t) : list string :=
  flat_map
    (fun methSpec =>
       flat_map
         (fun methArg =>
            if String.eqb (MethodArg.ImportPath methArg) EmptyString then []
            else [MethodArg.ImportPath methArg])
         (MethodSpec.Args methSpec))
    (TypeInfo.MethodSpecs spec).

(** Every import path referenced by a type info or by a method argument
    with a non-empty import path. *)
Definition referencedPaths (src : SourceInfo.t) : list string :=
  flat_map (fun spec => TypeInfo.ImportPath spec :: argPaths spec)
    (typeInfos src).

(** No alias is given to two import paths. *)
Definition injective_table (m : gmap string string) : Prop :=
  forall p1 p2 a, m !! p1 = Some a -> m !! p2 = Some a -> p1 = p2.

(** [m'] keeps the entries of [m], and is injective when [m] is. *)
Definition extends (m m' : gmap string string) : Prop :=
  m ⊆ m' /\ (injective_table m -> injective_table m').

(** Sample sources. *)
Definition ti (path pkg : string) : TypeInfo.t :=
  TypeInfo.mk "App" path pkg [].

Definition srcTwoInit : SourceInfo.t :=
  SourceInfo.mk [ti "sample/app/controllers" "controllers"] [] []
    ["github.com/lib/pq"; "github.com/mattn/go-sqlite3"].

Definition srcFour : SourceInfo.t :=
  SourceInfo.mk
    [ti "x/a" "a"; ti "y/a" "a"; ti "z/a0" "a0"; ti "w/a0" "a0"] [] [] [].

Definition srcTwo : SourceInfo.t :=
  SourceInfo.mk
    [ti "sample/app/controllers" "controllers";
     ti "sample/admin/controllers" "controllers"] [] [] [].

(** A controller with an argument of the package sample/app/models, named
    [m] in its file, then a type of that package and a type of another
    package of the same name. *)
Definition srcArgFirst : SourceInfo.t :=
  SourceInfo.mk
    [TypeInfo.mk "App" "sample/app/controllers" "controllers"
       [MethodSpec.mk "Show"
          [MethodArg.mk "user" "sample/app/models" (TypeExpr.mk "m.User" "m")]
          []];
     ti "sample/app/models" "models"; ti "sample/other/models" "models"]
    [] [] [].

(** [a] is the alias that [addAlias] gives to the import path [p] of a
    package named [n] when the table is [m]: the alias that [p] has in [m]
    if it has one; else [n] if no entry of [m] holds [n]; else [n] followed
    by the least number, counted from 0, that gives an alias held by no
    entry of [m]. *)
Definition aliasGiven (m : gmap string string) (p n a : string) : Prop :=
  match m !! p with
  | Some a' => a = a'
  | None =>
      if containsValue m n then
        exists j, a = sprintf_sd n j
          /\ containsValue m (sprintf_sd n j) = false
          /\ forall j', j' < j -> containsValue m (sprintf_sd n j') = true
      else a = n
  end.

(** The byte [c] occurs in [s]. *)
Fixpoint hasByte (c : ascii) (s : string) : bool :=
  match s with
  | EmptyString => false
  | String d s' => Ascii.eqb c d || hasByte c s'
  end.

(** [pre], read from a line start when [bol], ends at a line start. *)
Fixpoint endsAtLineStart (bol : bool) (pre : string) : bool :=
  match pre with
  | EmptyString => bol
  | String c pre' => endsAtLineStart (Ascii.eqb c newline) pre'
  end.

(** The diagnostic pattern matches at no line start of [output]. *)
Definition noDiagnostic (output : string) : Prop :=
  forall pre rest, output = pre +:+ rest ->
    endsAtLineStart true pre = true -> matchErrorAt rest = None.

(** The diagnostic pattern matches at no line start of [pre +:+ rest] that
    lies in [pre]. *)
Fixpoint noMatchBefore (bol : bool) (pre rest : string) : bool :=
  match pre with
  | EmptyString => true
  | String c pre' =>
      (if bol then
         match matchErrorAt (pre +:+ rest) with Some _ => false | None => true end
       else true)
      && noMatchBefore (Ascii.eqb c newline) pre' rest
  end.

(** [post] is empty or begins with a newline: a line ends before it. *)
Definition lineEnd (post : string) : bool :=
  match post with
  | EmptyString => true
  | String c _ => Ascii.eqb c newline
  end.

Definition startsWithDigit (s : string) : bool :=
  match s with
  | EmptyString => false
  | String c _ => isDigit c
  end.

Definition diagLine : string := "controllers/app.go:42:10: undefined: Foo".

(** Sample worlds: the parts that vary are the arguments. *)
Definition sampleWorld (source : Error.t + SourceInfo.t)
    (config : string -> option string) (removeAll mkdir : option string)
    (commands : nat -> list string -> string * bool) : World :=
  {| AppPath := "/gopath/src/sample/app";
     ImportPath := "sample";
     BasePath := "/gopath/src/sample";
     GOOS := "linux";
     ProcessSource := source;
     Config_String := config;
     path_Join := joinWith "/";
     path_Base := fun _ => "sample";
     filepath_Abs := fun p => "/gopath/src/" +:+ p;
     ReadLines := fun _ => inl "no such file or directory";
     os_RemoveAll := fun _ => removeAll;
     os_Mkdir := fun _ => mkdir;
     os_Create := fun _ => None;
     file_WriteString := fun _ _ => None;
     exec_LookPath := fun _ => inr "/usr/bin/go";
     build_Import := fun _ => inr "/gopath/bin";
     CombinedOutput := commands;
     templateBody := fun _ _ => nl +:+ ")" +:+ nl |}.

Definition noConfig (key : string) : option string := None.

Definition emptySource : SourceInfo.t := SourceInfo.mk [] [] [] [].

Definition quietWorld : World :=
  sampleWorld (inr emptySource) noConfig None None
    (fun _ _ => (EmptyString, true)).

(** The diagnostic line after a line that holds no colon and no hash, and
    an output of two lines neither of which has the shape of a
    diagnostic. *)
Definition precededOutput : string := "go build failed" +:+ nl +:+ diagLine.
Definition splitOutput : string := "foo" +:+ nl +:+ ":12: x".

Definition headerLine : string := "# sample/app/tmp" +:+ nl.
Definition nextLine : string := nl +:+ "controllers/app.go:57: too many errors".

(** The commands run, in order. *)
Fixpoint execs (tr : list Event) : list (list string) :=
  match tr with
  | [] => []
  | Exec args :: tr' => args :: execs tr'
  | _ :: tr' => execs tr'
  end.

Definition isBuild (args : list string) : bool :=
  match args with
  | _ :: sub :: _ => String.eqb sub "build"
  | _ => false
  end.

(** The build commands run, in order, and their number. *)
Definition builds (tr : list Event) : list (list string) :=
  List.filter isBuild (execs tr).

Definition buildCount (tr : list Event) : nat := length (builds tr).

Definition fetchedPkg (args : list string) : list string :=
  match args with
  | [_; sub; pkgName] => if String.eqb sub "get" then [pkgName] else []
  | _ => []
  end.

(** The packages for which a fetch was run, in order. *)
Definition fetched (tr : list Event) : list string :=
  flat_map fetchedPkg (execs tr).

(** [p] is named by the missing-import diagnostic of a failed build of the
    run with trace [tr]: the build number [i] is the command number [2 i]. *)
Definition reported (w : World) (tr : list Event) (p : string) : Prop :=
  exists i args, builds tr !! i = Some args
    /\ (CombinedOutput w (2 * i) args).2 = false
    /\ findImportError (CombinedOutput w (2 * i) args).1 = Some p.

(** The state of the loop after [j] turns that all went on: the events of
    these turns and the state reached.  [None]: an earlier turn ended the
    call. *)
Fixpoint runIterations (j : nat) (w : World)
    (goPath buildTags binName : string) (gotten : gmap string unit) (k : nat)
    : option (list Event * (gmap string unit * nat)) :=
  match j with
  | O => Some ([], (gotten, k))
  | S j' =>
      let it := Build_iteration w goPath buildTags binName gotten k in
      match it.2 with
      | inl _ => None
      | inr (gotten', k') =>
          match runIterations j' w goPath buildTags binName gotten' k' with
          | Some (evs, st) => Some (it.1 ++ evs, st)
          | None => None
          end
      end
  end.

(** The output of a build that misses the package [pkgName]. *)
Definition missingOutput (pkgName : string) : string :=
  "main.go:7:2: " +:+ importErrorPrefix +:+ pkgName +:+ importErrorSuffix.

Fixpoint xs (n : nat) : string :=
  match n with
  | O => EmptyString
  | S n' => String "x" (xs n')
  end.

Definition isGet (args : list string) : bool :=
  match args with
  | _ :: sub :: _ => String.eqb sub "get"
  | _ => false
  end.

(** A toolchain in which every fetch succeeds and the build number [i]
    misses a package not seen before. *)
Definition endlessWorld : World :=
  sampleWorld (inr emptySource) noConfig None None
    (fun k args =>
       if isGet args then (EmptyString, true)
       else (missingOutput ("p" +:+ xs k), false)).


(** The scratch directory cannot be made. *)
Definition noDirWorld : World :=
  sampleWorld (inr emptySource) noConfig None (Some "file exists")
    (fun _ _ => (EmptyString, true)).

(** Two packages are missing one after the other, then the build succeeds. *)
Definition twoMissingWorld : World :=
  sampleWorld (inr emptySource) noConfig None None
    (fun k args =>
       if isGet args then (EmptyString, true)
       else match k with
            | 0 => (missingOutput "github.com/lib/pq", false)
            | 2 => (missingOutput "code.google.com/p/go.net", false)
            | _ => (EmptyString, true)
            end).

(** The same package is missing again after its fetch. *)
Definition stillMissingWorld : World :=
  sampleWorld (inr emptySource) noConfig None None
    (fun k args =>
       if isGet args then (EmptyString, true)
       else (missingOutput "github.com/lib/pq", false)).

(** The fetch of the missing package fails. *)
Definition noFetchWorld : World :=
  sampleWorld (inr emptySource) noConfig None None
    (fun k args =>
       if isGet args then ("package github.com/lib/pq: exit status 128", false)
       else (missingOutput "github.com/lib/pq", false)).



(** The events of a build command, of a failed one, and of a fetch. *)
Definition buildEvents (args : list string) : list Event :=
  [Log TRACE (Sprintln ["Exec:"; showArgs args]); Exec args].

Definition failedBuildEvents (args : list string) (output : string)
    : list Event :=
  buildEvents args ++ [Log TRACE (Sprintln [output])].

Definition fetchEvents (goPath pkgName : string) : list Event :=
  [Log TRACE (Sprintln ["Exec:"; showArgs (getArgs goPath pkgName)]);
   Exec (getArgs goPath pkgName)].

(** The error logged when the scratch directory cannot be removed. *)
Definition removeLog (w : World) : list Event :=
  match os_RemoveAll w (tmpPath w) with
  | Some err => [Log ERROR (Sprintln ["Failed to remove tmp dir:"; err])]
  | None => []
  end.


(** The call of [Build] returns or exits. *)
Definition terminates (w : World) : Prop :=
  exists fuel r, Build fuel w = Some r.

(** The package is missing again after its fetch, at another place. *)
Definition movedOutput (pkgName : string) : string :=
  "app/init.go:3:2: " +:+ importErrorPrefix +:+ pkgName +:+ importErrorSuffix.

Definition movedWorld : World :=
  sampleWorld (inr emptySource) noConfig None None
    (fun k args =>
       if isGet args then (EmptyString, true)
       else match k with
            | 0 => (missingOutput "github.com/lib/pq", false)
            | _ => (movedOutput "github.com/lib/pq", false)
            end).

(** ** Vocabulary of the further properties *)

(** The calls of [addAlias] made for one method argument, one type, one
    source: the import path and the package name passed, in order. *)
Definition argRequests (methArg : MethodArg.t) : list (string * string) :=
  if String.eqb (MethodArg.ImportPath methArg) EmptyString then []
  else [(MethodArg.ImportPath methArg,
         TypeExpr.PkgName (MethodArg.TypeExpr methArg))].

Definition specRequests (spec : TypeInfo.t) : list (string * string) :=
  (TypeInfo.ImportPath spec, TypeInfo.PackageName spec)
  :: flat_map (fun methSpec => flat_map argRequests (MethodSpec.Args methSpec))
       (TypeInfo.MethodSpecs spec).

Definition aliasRequests (src : SourceInfo.t) : list (string * string) :=
  flat_map specRequests (typeInfos src).

(** No two requests disagree: one path has one package name, and one
    package name belongs to one path. *)
Definition collisionFree (reqs : list (string * string)) : Prop :=
  forall r1 r2, r1 ∈ reqs -> r2 ∈ reqs -> (r1.1 = r2.1 <-> r1.2 = r2.2).

(** A diagnostic line as the compiler prints it. *)
Definition formatDiagnostic (path : string) (line : nat) (col : option nat)
    (msg : string) : string :=
  path +:+ ":" +:+ pretty line +:+ ":"
  +:+ match col with
      | Some c => pretty c +:+ ":"
      | None => EmptyString
      end
  +:+ " " +:+ msg.

Definition argOf (path pkg : string) : MethodArg.t :=
  MethodArg.mk "arg" path (TypeExpr.mk "T" pkg).

(** A source without collision: a controller with two arguments of other
    packages, one of them of no package. *)
Definition srcPlain : SourceInfo.t :=
  SourceInfo.mk
    [TypeInfo.mk "App" "sample/app/controllers" "controllers"
       [MethodSpec.mk "Index"
          [argOf "sample/app/models" "models"; argOf EmptyString EmptyString;
           argOf "net/url" "url"] []]]
    [TypeInfo.mk "AppTest" "sample/tests" "tests" []] []
    ["github.com/lib/pq"].

(** The package name [p] can stand in the missing-import phrase. *)
Definition validPkgName (p : string) : Prop :=
  isEmpty p = false /\ hasByte dquote p = false.

(** A world in which every file can be read. *)
Definition readableWorld : World :=
  {| AppPath := "/gopath/src/sample/app";
     ImportPath := "sample";
     BasePath := "/gopath/src/sample";
     GOOS := "windows";
     ProcessSource := inr emptySource;
     Config_String := noConfig;
     path_Join := joinWith "/";
     path_Base := fun _ => "sample";
     filepath_Abs := fun p => "/gopath/src/" +:+ p;
     ReadLines := fun _ => inr ["package controllers"; "func Index() {"];
     os_RemoveAll := fun _ => None;
     os_Mkdir := fun _ => None;
     os_Create := fun _ => None;
     file_WriteString := fun _ _ => None;
     exec_LookPath := fun _ => inr "/usr/bin/go";
     build_Import := fun _ => inr "/gopath/bin";
     CombinedOutput := fun _ _ => (EmptyString, true);
     templateBody := fun _ _ => nl +:+ ")" +:+ nl |}.

(** Two controllers, and the same with two test suites after them. *)
Definition srcTwoA : SourceInfo.t :=
  SourceInfo.mk [ti "x/a" "a"; ti "y/a" "a"] [] [] [].

Definition srcTwoB : SourceInfo.t :=
  SourceInfo.mk [ti "x/a" "a"; ti "y/a" "a"]
    [ti "z/a0" "a0"; ti "w/a0" "a0"] [] [].

(** * Properties *)

(** ** The alias resolver *)

Lemma containsValue_true (m : gmap string string) (v : string) :
  containsValue m v = true <-> exists k, m !! k = Some v.
Proof.
  unfold containsValue. rewrite existsb_exists. split.
  - intros [[k v'] [Hin Heq]]. apply String.eqb_eq in Heq. simpl in Heq.
    subst v'. exists k. apply elem_of_map_to_list.
    by apply list_elem_of_In.
  - intros [k Hk]. exists (k, v). split.
    + apply list_elem_of_In. by apply elem_of_map_to_list.
    + apply String.eqb_refl.
Qed.

Lemma containsValue_false (m : gmap string string) (v : string) :
  containsValue m v = false <-> forall k, m !! k <> Some v.
Proof.
  split.
  - intros Hf k Hk.
    assert (containsValue m v = true) by (apply containsValue_true; eauto).
    congruence.
  - intros Hno. destruct (containsValue m v) eqn:E; [|done].
    apply containsValue_true in E as [k Hk]. by destruct (Hno k).
Qed.

Lemma pretty_N_go_nonempty (x : N) (s : string) :
  s <> EmptyString -> pretty_N_go x s <> EmptyString.
Proof.
  revert s. induction (N.lt_wf_0 x) as [x _ IH]; intros s Hs.
  destruct (decide (x = 0%N)) as [->|Hx].
  - by rewrite pretty_N_go_0.
  - rewrite pretty_N_go_step by lia. apply IH; [|done].
    apply N.div_lt; lia.
Qed.

Lemma pretty_nat_nonempty (n : nat) : pretty n <> EmptyString.
Proof.
  unfold pretty, pretty_nat, pretty, pretty_N.
  case_decide; [done|].
  rewrite pretty_N_go_step by lia. by apply pretty_N_go_nonempty.
Qed.

Lemma append_empty_r (p s : string) : p +:+ s = p -> s = EmptyString.
Proof.
  induction p as [|a p IH]; simpl; [done|].
  intros H. injection H as H. auto.
Qed.

Lemma sprintf_sd_inj (p : string) (i j : nat) :
  sprintf_sd p i = sprintf_sd p j -> i = j.
Proof.
  unfold sprintf_sd. intros H. apply (inj (String.app p)) in H.
  by apply (inj pretty) in H.
Qed.

Lemma sprintf_sd_ne (p : string) (i : nat) : sprintf_sd p i <> p.
Proof.
  unfold sprintf_sd. intros H. apply append_empty_r in H.
  by apply pretty_nat_nonempty in H.
Qed.

(** The candidates [pkgName, pkgName0, pkgName1, ...] tried by the loop. *)
Lemma candidates_NoDup (p : string) (n : nat) :
  NoDup (p :: map (sprintf_sd p) (seq 0 n)).
Proof.
  constructor.
  - intros Hin. apply list_elem_of_In, in_map_iff in Hin as [j [Hj _]].
    by apply sprintf_sd_ne in Hj.
  - apply NoDup_fmap_2; [|apply NoDup_seq].
    intros i j. apply sprintf_sd_inj.
Qed.

Lemma bounded_search (f : nat -> bool) (n : nat) :
  (exists j, j < n /\ f j = false) \/ (forall j, j < n -> f j = true).
Proof.
  induction n as [|n [[j [Hj Hf]]|IH]].
  - right. lia.
  - left. exists j. split; [lia|done].
  - destruct (f n) eqn:E.
    + right. intros j Hj. destruct (decide (j = n)) as [->|]; [done|].
      apply IH. lia.
    + left. exists n. split; [lia|done].
Qed.

(** A table of [size m] entries cannot hold the bare name and the first
    [size m] suffixed names at once. *)
Lemma some_candidate_unused (m : gmap string string) (p : string) :
  containsValue m p = true ->
  exists j, j < size m /\ containsValue m (sprintf_sd p j) = false.
Proof.
  intros Hp.
  destruct (bounded_search (fun j => containsValue m (sprintf_sd p j)) (size m))
    as [H|Hall]; [done|].
  exfalso.
  assert (p :: map (sprintf_sd p) (seq 0 (size m)) ⊆+ (map_to_list m).*2) as Hsub.
  { apply NoDup_submseteq; [apply candidates_NoDup|].
    intros v Hv. apply elem_of_cons in Hv as [->|Hv].
    - apply containsValue_true in Hp as [k Hk].
      apply list_elem_of_fmap. exists (k, p). split; [done|].
      by apply elem_of_map_to_list.
    - apply list_elem_of_In, in_map_iff in Hv as [j [<- Hj]].
      apply in_seq in Hj.
      destruct (proj1 (containsValue_true m (sprintf_sd p j))) as [k Hk].
      { apply Hall. lia. }
      apply list_elem_of_fmap. exists (k, sprintf_sd p j). split; [done|].
      by apply elem_of_map_to_list. }
  apply submseteq_length in Hsub.
  rewrite length_fmap, length_map_to_list in Hsub. simpl in Hsub.
  rewrite length_map, length_seq in Hsub. lia.
Qed.

(** The loop started on a taken alias stops at the first unused suffix, as
    soon as the fuel reaches it. *)
Lemma makePackageAlias_loop_first_unused (fuel : nat)
    (m : gmap string string) (p : string) (i : nat) (alias : string) :
  containsValue m alias = true ->
  (exists j, i <= j < i + fuel /\ containsValue m (sprintf_sd p j) = false) ->
  exists j, i <= j
    /\ makePackageAlias_loop fuel m p i alias = sprintf_sd p j
    /\ containsValue m (sprintf_sd p j) = false
    /\ forall j', i <= j' < j -> containsValue m (sprintf_sd p j') = true.
Proof.
  revert i alias. induction fuel as [|fuel IH]; intros i alias Ha [j [Hj Hf]].
  - lia.
  - simpl. rewrite Ha.
    destruct (containsValue m (sprintf_sd p i)) eqn:Ei.
    + destruct (IH (S i) (sprintf_sd p i) Ei) as [j' (Hle & Heq & Hun & Hmin)].
      { exists j. split; [|done].
        destruct (decide (j = i)) as [->|]; [congruence|lia]. }
      exists j'. split; [lia|]. split; [done|]. split; [done|].
      intros j'' Hj''. destruct (decide (j'' = i)) as [->|]; [done|].
      apply Hmin. lia.
    + exists i. split; [lia|]. split.
      { destruct fuel; simpl; by rewrite Ei. }
      split; [done|]. intros j' Hj'. lia.
Qed.

(** [makePackageAlias]: the bare name when it is free, else the name with
    the least suffix that is free. *)
Lemma makePackageAlias_spec (m : gmap string string) (p : string) :
  (containsValue m p = false /\ makePackageAlias m p = p)
  \/ (containsValue m p = true /\ exists j,
        makePackageAlias m p = sprintf_sd p j
        /\ containsValue m (sprintf_sd p j) = false
        /\ forall j', j' < j -> containsValue m (sprintf_sd p j') = true).
Proof.
  unfold makePackageAlias. destruct (containsValue m p) eqn:Ep.
  - right. split; [done|].
    destruct (some_candidate_unused m p Ep) as [j [Hj Hf]].
    destruct (makePackageAlias_loop_first_unused (size m) m p 0 p Ep)
      as [j' (_ & Heq & Hun & Hmin)].
    { exists j. split; [lia|done]. }
    exists j'. split; [done|]. split; [done|].
    intros j'' Hj''. apply Hmin. lia.
  - left. split; [done|]. destruct (size m); simpl; by rewrite Ep.
Qed.

(** The loop of [makePackageAlias] leaves by its condition: the alias it
    returns is held by no entry. *)
Lemma makePackageAlias_loop_exits (m : gmap string string) (p : string) :
  containsValue m (makePackageAlias m p) = false.
Proof.
  destruct (makePackageAlias_spec m p) as [[Hf ->]|[_ [j (-> & Hf & _)]]]; done.
Qed.

(** More fuel does not change the result. *)
Lemma makePackageAlias_loop_fuel (m : gmap string string) (p : string)
    (fuel : nat) :
  size m <= fuel ->
  makePackageAlias_loop fuel m p 0 p = makePackageAlias m p.
Proof.
  intros Hfuel. unfold makePackageAlias.
  destruct (containsValue m p) eqn:Ep.
  - destruct (some_candidate_unused m p Ep) as [j [Hj Hf]].
    destruct (makePackageAlias_loop_first_unused (size m) m p 0 p Ep)
      as [j1 (_ & Heq1 & Hun1 & Hmin1)]; [exists j; split; [lia|done]|].
    destruct (makePackageAlias_loop_first_unused fuel m p 0 p Ep)
      as [j2 (_ & Heq2 & Hun2 & Hmin2)]; [exists j; split; [lia|done]|].
    rewrite Heq1, Heq2. f_equal.
    destruct (Nat.lt_trichotomy j1 j2) as [Hlt|[->|Hlt]]; [|done|].
    + rewrite Hmin2 in Hun1 by lia. done.
    + rewrite Hmin1 in Hun2 by lia. done.
  - destruct fuel, (size m); simpl; by rewrite Ep.
Qed.

(** *** The table along the loops *)

Lemma extends_refl (m : gmap string string) : extends m m.
Proof. split; [done|auto]. Qed.

Lemma extends_trans (m1 m2 m3 : gmap string string) :
  extends m1 m2 -> extends m2 m3 -> extends m1 m3.
Proof. intros [H1 I1] [H2 I2]. split; [by etrans|auto]. Qed.

Lemma extends_key (m m' : gmap string string) (p : string) :
  extends m m' -> is_Some (m !! p) -> is_Some (m' !! p).
Proof. intros [Hsub _] [a Ha]. exists a. by eapply lookup_weaken. Qed.

Lemma addAlias_extends (m : gmap string string) (p n : string) :
  extends m (addAlias m p n).
Proof.
  unfold addAlias. destruct (m !! p) eqn:Ep; [apply extends_refl|].
  split; [by apply insert_subseteq|].
  intros Hinj p1 p2 a H1 H2.
  pose proof (makePackageAlias_loop_exits m n) as Hfresh.
  rewrite containsValue_false in Hfresh.
  apply lookup_insert_Some in H1 as [[E1 A1]|[Hne1 H1]];
    apply lookup_insert_Some in H2 as [[E2 A2]|[Hne2 H2]].
  - congruence.
  - subst a. by destruct (Hfresh p2).
  - subst a. by destruct (Hfresh p1).
  - eauto.
Qed.

Lemma addAlias_key (m : gmap string string) (p n : string) :
  is_Some (addAlias m p n !! p).
Proof.
  unfold addAlias. destruct (m !! p) eqn:Ep; [by rewrite Ep|].
  rewrite lookup_insert_eq. eauto.
Qed.

Lemma foldl_extends {A} (f : gmap string string -> A -> gmap string string) :
  (forall m x, extends m (f m x)) ->
  forall l m, extends m (foldl f m l).
Proof.
  intros Hf l. induction l as [|x l IH]; intros m; simpl.
  - apply extends_refl.
  - eapply extends_trans; [apply Hf|apply IH].
Qed.

Lemma foldl_key {A} (f : gmap string string -> A -> gmap string string)
    (l : list A) (m : gmap string string) (x : A) (p : string) :
  (forall m x, extends m (f m x)) ->
  x ∈ l -> (forall m, is_Some (f m x !! p)) ->
  is_Some (foldl f m l !! p).
Proof.
  intros Hf Hx Hp. revert m. induction l as [|y l IH]; intros m.
  - by apply elem_of_nil in Hx.
  - simpl. apply elem_of_cons in Hx as [->|Hx]; [|by apply IH].
    eapply extends_key; [by apply foldl_extends|apply Hp].
Qed.

Lemma addArgAlias_extends (m : gmap string string) (a : MethodArg.t) :
  extends m (addArgAlias m a).
Proof.
  unfold addArgAlias. destruct (String.eqb _ _);
    [apply extends_refl|apply addAlias_extends].
Qed.

Lemma addMethodAliases_extends (m : gmap string string) (ms : MethodSpec.t) :
  extends m (addMethodAliases m ms).
Proof. apply foldl_extends, addArgAlias_extends. Qed.

Lemma addSpecAliases_extends (m : gmap string string) (spec : TypeInfo.t) :
  extends m (addSpecAliases m spec).
Proof.
  unfold addSpecAliases. eapply extends_trans; [apply addAlias_extends|].
  apply foldl_extends, addMethodAliases_extends.
Qed.

Lemma addSpecAliases_own_key (m : gmap string string) (spec : TypeInfo.t) :
  is_Some (addSpecAliases m spec !! TypeInfo.ImportPath spec).
Proof.
  unfold addSpecAliases. eapply extends_key; [|apply addAlias_key].
  apply foldl_extends, addMethodAliases_extends.
Qed.

Lemma addSpecAliases_arg_key (m : gmap string string) (spec : TypeInfo.t)
    (p : string) :
  p ∈ argPaths spec -> is_Some (addSpecAliases m spec !! p).
Proof.
  unfold argPaths. intros Hp.
  apply list_elem_of_In, in_flat_map in Hp as [ms [Hms Hp]].
  apply in_flat_map in Hp as [a [Ha Hp]].
  destruct (String.eqb (MethodArg.ImportPath a) EmptyString) eqn:Ea;
    [done|].
  destruct Hp as [<-|[]].
  unfold addSpecAliases.
  apply foldl_key with (x := ms);
    [apply addMethodAliases_extends|by apply list_elem_of_In|].
  intros m'. unfold addMethodAliases.
  apply foldl_key with (x := a);
    [apply addArgAlias_extends|by apply list_elem_of_In|].
  intros m''. unfold addArgAlias. rewrite Ea. apply addAlias_key.
Qed.

(** The two arrays are visited one after the other. *)
Lemma typeAliases_foldl (src : SourceInfo.t) :
  typeAliases src = foldl addSpecAliases ∅ (typeInfos src).
Proof. unfold typeAliases, typeInfos. simpl. by rewrite foldl_app. Qed.

Lemma injective_table_empty : injective_table ∅.
Proof. intros p1 p2 a H. by rewrite lookup_empty in H. Qed.

Lemma typeAliases_injective (src : SourceInfo.t) :
  injective_table (typeAliases src).
Proof.
  rewrite typeAliases_foldl.
  apply (foldl_extends addSpecAliases addSpecAliases_extends);
    apply injective_table_empty.
Qed.

Lemma typeAliases_keys (src : SourceInfo.t) (p : string) :
  p ∈ referencedPaths src -> is_Some (typeAliases src !! p).
Proof.
  unfold referencedPaths. intros Hp.
  apply list_elem_of_In, in_flat_map in Hp as [spec [Hspec Hp]].
  rewrite typeAliases_foldl.
  apply foldl_key with (x := spec);
    [apply addSpecAliases_extends|by apply list_elem_of_In|].
  intros m. destruct Hp as [<-|Hp].
  - apply addSpecAliases_own_key.
  - by apply addSpecAliases_arg_key, list_elem_of_In.
Qed.

(** The init imports fill the free keys with the discard alias. *)
Lemma foldl_addInitImport_lookup (l : list string) (m : gmap string string)
    (p : string) :
  foldl addInitImport m l !! p =
  match m !! p with
  | Some a => Some a
  | None => if decide (p ∈ l) then Some "_" else None
  end.
Proof.
  revert m. induction l as [|q l IH]; intros m.
  - simpl. destruct (m !! p); [done|].
    destruct (decide (p ∈ [])) as [Hin|]; [|done].
    by apply elem_of_nil in Hin.
  - change (foldl addInitImport m (q :: l))
      with (foldl addInitImport (addInitImport m q) l).
    rewrite IH. unfold addInitImport.
    destruct (m !! q) eqn:Eq.
    + destruct (m !! p) eqn:Ep; [done|].
      assert (p <> q) by congruence.
      destruct (decide (p ∈ l)), (decide (p ∈ q :: l)) as [Hin|Hnin];
        try done.
      * destruct Hnin. by apply elem_of_cons; right.
      * apply elem_of_cons in Hin as [?|?]; done.
    + destruct (decide (p = q)) as [->|Hne].
      * rewrite lookup_insert_eq, Eq.
        destruct (decide (q ∈ q :: l)) as [|Hnin]; [done|].
        destruct Hnin. apply elem_of_cons. by left.
      * rewrite lookup_insert_ne by done.
        destruct (m !! p); [done|].
        destruct (decide (p ∈ l)), (decide (p ∈ q :: l)) as [Hin|Hnin];
          try done.
        -- destruct Hnin. by apply elem_of_cons; right.
        -- apply elem_of_cons in Hin as [?|?]; done.
Qed.

Lemma calcImportAliases_lookup (src : SourceInfo.t) (p : string) :
  calcImportAliases src !! p =
  match typeAliases src !! p with
  | Some a => Some a
  | None =>
      if decide (p ∈ SourceInfo.InitImportPaths src) then Some "_" else None
  end.
Proof. apply foldl_addInitImport_lookup. Qed.

(** C1, as amended.  Every import path referenced by a type info, or by a
    method argument with a non-empty import path, is a key of the table of
    [calcImportAliases]; two different referenced paths never have the same
    alias; and two different keys of the table have the same alias only
    when that alias is the discard alias of the init imports. *)
Theorem calcImportAliases_table (src : SourceInfo.t) :
  (forall p, p ∈ referencedPaths src ->
     is_Some (calcImportAliases src !! p))
  /\ (forall p1 p2 a, p1 ∈ referencedPaths src -> p2 ∈ referencedPaths src ->
        calcImportAliases src !! p1 = Some a ->
        calcImportAliases src !! p2 = Some a -> p1 = p2)
  /\ (forall p1 p2 a, p1 <> p2 ->
        calcImportAliases src !! p1 = Some a ->
        calcImportAliases src !! p2 = Some a -> a = "_").
Proof.
  split; [|split].
  - intros p Hp. rewrite calcImportAliases_lookup.
    destruct (typeAliases_keys src p Hp) as [a ->]. eauto.
  - intros p1 p2 a H1 H2. rewrite !calcImportAliases_lookup.
    destruct (typeAliases_keys src p1 H1) as [a1 E1].
    destruct (typeAliases_keys src p2 H2) as [a2 E2].
    rewrite E1, E2. intros [= ->] [= ->].
    by apply (typeAliases_injective src p1 p2 a).
  - intros p1 p2 a Hne. rewrite !calcImportAliases_lookup.
    destruct (typeAliases src !! p1) as [a1|] eqn:E1;
      destruct (typeAliases src !! p2) as [a2|] eqn:E2.
    + intros [= ->] [= ->].
      by destruct Hne; apply (typeAliases_injective src p1 p2 a).
    + intros _. case_decide; congruence.
    + case_decide; congruence.
    + case_decide; congruence.
Qed.

(** C1, as stated, fails: two init imports share the discard alias. *)
Lemma calcImportAliases_shared_alias :
  calcImportAliases srcTwoInit !! "github.com/lib/pq" = Some "_"
  /\ calcImportAliases srcTwoInit !! "github.com/mattn/go-sqlite3" = Some "_"
  /\ "github.com/lib/pq" <> "github.com/mattn/go-sqlite3"
  /\ ~ injective_table (calcImportAliases srcTwoInit).
Proof.
  assert (calcImportAliases srcTwoInit !! "github.com/lib/pq" = Some "_")
    as H1 by (by vm_compute).
  assert (calcImportAliases srcTwoInit !! "github.com/mattn/go-sqlite3"
          = Some "_") as H2 by (by vm_compute).
  split; [done|]. split; [done|]. split; [done|].
  intros Hinj. by pose proof (Hinj _ _ _ H1 H2).
Qed.

(** *** Two types of one package name *)

Lemma containsValue_weaken (m m' : gmap string string) (v : string) :
  m ⊆ m' -> containsValue m v = true -> containsValue m' v = true.
Proof.
  intros Hsub. rewrite !containsValue_true. intros [k Hk].
  exists k. by eapply lookup_weaken.
Qed.

Lemma addAlias_new (m : gmap string string) (p n : string) :
  m !! p = None -> addAlias m p n !! p = Some (makePackageAlias m n).
Proof. intros Hp. unfold addAlias. rewrite Hp. apply lookup_insert_eq. Qed.

Lemma addSpecAliases_new (m : gmap string string) (spec : TypeInfo.t) :
  m !! TypeInfo.ImportPath spec = None ->
  addSpecAliases m spec !! TypeInfo.ImportPath spec
  = Some (makePackageAlias m (TypeInfo.PackageName spec)).
Proof.
  intros Hp. unfold addSpecAliases.
  eapply lookup_weaken; [by apply addAlias_new|].
  apply foldl_extends, addMethodAliases_extends.
Qed.

Lemma foldl_addSpecAliases_subseteq (m : gmap string string)
    (l : list TypeInfo.t) :
  m ⊆ foldl addSpecAliases m l.
Proof. apply (foldl_extends addSpecAliases addSpecAliases_extends). Qed.

(** The alias of its own path after a type info is visited. *)
Lemma addSpecAliases_aliasGiven (m : gmap string string) (spec : TypeInfo.t) :
  exists a,
    addSpecAliases m spec !! TypeInfo.ImportPath spec = Some a
    /\ aliasGiven m (TypeInfo.ImportPath spec) (TypeInfo.PackageName spec) a.
Proof.
  unfold aliasGiven.
  destruct (m !! TypeInfo.ImportPath spec) as [a'|] eqn:Hp.
  - exists a'. split; [|done].
    eapply lookup_weaken; [exact Hp|]. apply addSpecAliases_extends.
  - exists (makePackageAlias m (TypeInfo.PackageName spec)).
    split; [by apply addSpecAliases_new|].
    destruct (makePackageAlias_spec m (TypeInfo.PackageName spec))
      as [[-> E]|[-> [j (E & Hf & Hmin)]]]; [done|].
    exists j. by rewrite E.
Qed.

(** C5, as amended.  Take two type infos [t1], visited first, and [t2] with
    one package name [n] and different import paths.  Their aliases are
    different.  Each gets its alias when it is visited, from the table of
    that moment ([m0] for [t1], [m2] for [t2]): a path that has an alias
    keeps it; else it gets the bare name [n] if no entry holds [n]; else
    [n] followed by the least number, counted from 0, that gives an alias
    held by no entry.  The alias of [t1] is in the table when [t2] is
    visited; so some entry holds [n] then, and [t2] gets no bare name,
    when the path of [t1] had no alias before [t1] or the alias of [t1] is
    [n]. *)
Theorem same_package_two_paths (src : SourceInfo.t)
    (pre mid post : list TypeInfo.t) (t1 t2 : TypeInfo.t) :
  typeInfos src = pre ++ t1 :: mid ++ t2 :: post ->
  TypeInfo.PackageName t1 = TypeInfo.PackageName t2 ->
  TypeInfo.ImportPath t1 <> TypeInfo.ImportPath t2 ->
  let n := TypeInfo.PackageName t1 in
  let m0 := foldl addSpecAliases ∅ pre in
  let m2 := foldl addSpecAliases ∅ (pre ++ t1 :: mid) in
  exists a1 a2,
    calcImportAliases src !! TypeInfo.ImportPath t1 = Some a1
    /\ calcImportAliases src !! TypeInfo.ImportPath t2 = Some a2
    /\ a1 <> a2
    /\ aliasGiven m0 (TypeInfo.ImportPath t1) n a1
    /\ aliasGiven m2 (TypeInfo.ImportPath t2) n a2
    /\ m2 !! TypeInfo.ImportPath t1 = Some a1
    /\ (m0 !! TypeInfo.ImportPath t1 = None \/ a1 = n ->
        containsValue m2 n = true
        /\ (m2 !! TypeInfo.ImportPath t2 = None ->
            exists j, a2 = sprintf_sd n j)).
Proof.
  intros Hsplit Hname Hpath n m0 m2.
  set (nm := TypeInfo.PackageName t1) in *. subst n.
  assert (m2 = foldl addSpecAliases (addSpecAliases m0 t1) mid) as Hm2.
  { unfold m2. by rewrite foldl_app. }
  assert (typeAliases src = foldl addSpecAliases (addSpecAliases m2 t2) post)
    as Hfin2.
  { rewrite typeAliases_foldl, Hsplit. unfold m2.
    replace (pre ++ t1 :: mid ++ t2 :: post)
      with ((pre ++ t1 :: mid) ++ t2 :: post)
      by (by rewrite <- app_assoc).
    by rewrite foldl_app. }
  destruct (addSpecAliases_aliasGiven m0 t1) as (a1 & Ha1 & Hg1).
  destruct (addSpecAliases_aliasGiven m2 t2) as (a2 & Ha2 & Hg2).
  rewrite <- Hname in Hg2. fold nm in Hg1, Hg2.
  assert (m2 !! TypeInfo.ImportPath t1 = Some a1) as Hm21.
  { rewrite Hm2. eapply lookup_weaken; [exact Ha1|].
    apply foldl_addSpecAliases_subseteq. }
  assert (typeAliases src !! TypeInfo.ImportPath t1 = Some a1) as Hf1.
  { rewrite Hfin2. eapply lookup_weaken; [exact Hm21|].
    etrans; [apply addSpecAliases_extends|].
    apply foldl_addSpecAliases_subseteq. }
  assert (typeAliases src !! TypeInfo.ImportPath t2 = Some a2) as Hf2.
  { rewrite Hfin2. eapply lookup_weaken; [exact Ha2|].
    apply foldl_addSpecAliases_subseteq. }
  exists a1, a2. rewrite !calcImportAliases_lookup, Hf1, Hf2.
  split; [done|]. split; [done|]. split.
  { intros ->. apply Hpath.
    by apply (typeAliases_injective src _ _ a2). }
  split; [done|]. split; [done|]. split; [done|].
  intros Hcase.
  assert (containsValue m2 nm = true) as Htaken.
  { destruct Hcase as [Hnew| ->].
    - unfold aliasGiven in Hg1. rewrite Hnew in Hg1.
      destruct (containsValue m0 nm) eqn:E.
      + apply containsValue_weaken with (m := m0); [|done].
        rewrite Hm2. etrans; [apply addSpecAliases_extends|].
        apply foldl_addSpecAliases_subseteq.
      + subst a1. apply containsValue_true. eauto.
    - apply containsValue_true. eauto. }
  split; [done|]. intros Hnew2.
  unfold aliasGiven in Hg2. rewrite Hnew2, Htaken in Hg2.
  destruct Hg2 as [j [E _]]. eauto.
Qed.

Lemma same_package_two_paths_witness :
  exists a1 a2,
    calcImportAliases srcTwo !! "sample/app/controllers" = Some a1
    /\ calcImportAliases srcTwo !! "sample/admin/controllers" = Some a2
    /\ a1 <> a2 /\ a1 = "controllers" /\ a2 = sprintf_sd "controllers" 0.
Proof.
  destruct (same_package_two_paths srcTwo [] [] []
              (ti "sample/app/controllers" "controllers")
              (ti "sample/admin/controllers" "controllers")
              eq_refl eq_refl ltac:(discriminate))
    as (a1 & a2 & H1 & H2 & Hne & Hg1 & Hg2 & _).
  exists a1, a2. split; [exact H1|]. split; [exact H2|]. split; [exact Hne|].
  split.
  - exact Hg1.
  - unfold aliasGiven in Hg2.
    match type of Hg2 with
    | match ?x with _ => _ end =>
        replace x with (@None string) in Hg2 by (vm_compute; reflexivity)
    end.
    match type of Hg2 with
    | if ?x then _ else _ =>
        replace x with true in Hg2 by (vm_compute; reflexivity)
    end.
    destruct Hg2 as [j (E & _ & Hmin)].
    destruct j as [|j]; [exact E|].
    specialize (Hmin 0 ltac:(lia)). vm_compute in Hmin. discriminate.
Defined.

(** C5, as stated, fails.  In [srcFour], [a0] is the alias of y/a when the
    two types of package [a0] are visited, and the first of them gets
    [a00], not the bare name.  In [srcArgFirst], the path of the first type
    of package [models] has the alias [m] from an argument, and the later
    type of that package name gets the bare name, with no suffix. *)
Lemma first_of_package_not_bare :
  typeInfos srcFour
  = [ti "x/a" "a"; ti "y/a" "a"; ti "z/a0" "a0"; ti "w/a0" "a0"]
  /\ TypeInfo.PackageName (ti "z/a0" "a0") = TypeInfo.PackageName (ti "w/a0" "a0")
  /\ TypeInfo.ImportPath (ti "z/a0" "a0") <> TypeInfo.ImportPath (ti "w/a0" "a0")
  /\ calcImportAliases srcFour !! "y/a" = Some "a0"
  /\ calcImportAliases srcFour !! "z/a0" = Some "a00"
  /\ calcImportAliases srcFour !! "w/a0" = Some "a01"
  /\ calcImportAliases srcFour !! "z/a0" <> Some "a0"
  /\ calcImportAliases srcArgFirst !! "sample/app/models" = Some "m"
  /\ calcImportAliases srcArgFirst !! "sample/other/models" = Some "models".
Proof.
  split; [reflexivity|]. split; [reflexivity|]. split; [discriminate|].
  assert (calcImportAliases srcFour !! "z/a0" = Some "a00") as E
    by (by vm_compute).
  split; [by vm_compute|]. split; [exact E|]. split; [by vm_compute|].
  split; [rewrite E; discriminate|].
  split; by vm_compute.
Qed.

(** ** The diagnostic parser *)

Lemma append_cons (c : ascii) (s r : string) :
  String c s +:+ r = String c (s +:+ r).
Proof. reflexivity. Qed.

Lemma append_nil (r : string) : EmptyString +:+ r = r.
Proof. reflexivity. Qed.

Lemma hasByte_cons (c d : ascii) (s : string) :
  hasByte c (String d s) = Ascii.eqb c d || hasByte c s.
Proof. reflexivity. Qed.

Lemma span_cons (p : ascii -> bool) (c : ascii) (s : string) :
  span p (String c s) =
  if p c then (String c (span p s).1, (span p s).2)
  else (EmptyString, String c s).
Proof. simpl. destruct (p c); [|done]. by destruct (span p s). Qed.

Lemma span_fst_all (p : ascii -> bool) (s : string) (c : ascii) :
  hasByte c (span p s).1 = true -> p c = true.
Proof.
  induction s as [|d s IH]; [done|].
  rewrite span_cons. destruct (p d) eqn:Ed; [|done].
  simpl. intros [Hc|Hc]%orb_true_iff; [|auto].
  apply Ascii.eqb_eq in Hc. by subst.
Qed.

Lemma matchErrorAt_group1 (s : string) (m : ErrorMatch) :
  matchErrorAt s = Some m ->
  group1 m = (span notColonHash s).1 /\ isEmpty (group1 m) = false.
Proof.
  unfold matchErrorAt. intros H.
  repeat case_match; simplify_eq; simpl; done.
Qed.

Lemma findErrorFrom_cons (b : bool) (c : ascii) (s : string) :
  findErrorFrom b (String c s) =
  match (if b then matchErrorAt (String c s) else None) with
  | Some m => Some m
  | None => findErrorFrom (Ascii.eqb c newline) s
  end.
Proof. reflexivity. Qed.

Lemma findErrorFrom_match (b : bool) (s : string) (m : ErrorMatch) :
  findErrorFrom b s = Some m ->
  exists pre rest, s = pre +:+ rest /\ endsAtLineStart b pre = true
    /\ matchErrorAt rest = Some m.
Proof.
  revert b. induction s as [|c s IH]; intros b.
  - simpl. destruct b; simpl; [|done]. intros H.
    exists EmptyString, EmptyString. done.
  - rewrite findErrorFrom_cons.
    destruct (if b then matchErrorAt (String c s) else None) as [m'|] eqn:E.
    + intros [= ->]. destruct b; [|done].
      exists EmptyString, (String c s). done.
    + intros H. destruct (IH _ H) as (pre & rest & -> & Hb & Hm).
      exists (String c pre), rest. done.
Qed.

(** The search fails exactly when the pattern matches at no line start. *)
Lemma findErrorFrom_None (b : bool) (s : string) :
  findErrorFrom b s = None <->
  forall pre rest, s = pre +:+ rest -> endsAtLineStart b pre = true ->
    matchErrorAt rest = None.
Proof.
  revert b. induction s as [|c s IH]; intros b; split.
  - intros _ [|??] [|??]; try done.
  - intros H. simpl. destruct b; [|done].
    by rewrite (H EmptyString EmptyString).
  - rewrite findErrorFrom_cons.
    destruct (if b then matchErrorAt (String c s) else None) eqn:E; [done|].
    intros H [|c' pre] rest Heq Hb.
    + rewrite append_nil in Heq. subst rest. simpl in Hb. by subst b.
    + rewrite append_cons in Heq. injection Heq as -> ->.
      by apply (proj1 (IH _) H pre rest).
  - intros H. rewrite findErrorFrom_cons.
    assert ((if b then matchErrorAt (String c s) else None) = None) as ->.
    { destruct b; [|done]. by apply (H EmptyString). }
    apply IH. intros pre rest -> Hb.
    by apply (H (String c pre) rest).
Qed.

Lemma findError_None (output : string) :
  findError output = None <-> noDiagnostic output.
Proof. apply findErrorFrom_None. Qed.

(** The search skips a prefix in which no line start matches. *)
Lemma findErrorFrom_skip (pre rest : string) (b : bool) :
  noMatchBefore b pre rest = true ->
  findErrorFrom b (pre +:+ rest) = findErrorFrom (endsAtLineStart b pre) rest.
Proof.
  revert b. induction pre as [|c pre IH]; intros b; [done|].
  simpl noMatchBefore. intros [H1 H2]%andb_true_iff.
  rewrite append_cons, findErrorFrom_cons. simpl endsAtLineStart.
  rewrite <- IH by done.
  destruct b; [|done]. rewrite append_cons in H1.
  by destruct (matchErrorAt (String c (pre +:+ rest))).
Qed.

(** What [noMatchBefore] says, without the recursion. *)
Lemma noMatchBefore_spec (pre rest : string) (b : bool) :
  noMatchBefore b pre rest = true <->
  forall p1 p2, pre = p1 +:+ p2 -> p2 <> EmptyString ->
    endsAtLineStart b p1 = true -> matchErrorAt (p2 +:+ rest) = None.
Proof.
  revert b. induction pre as [|c pre IH]; intros b; split.
  - intros _ [|??] [|??]; done.
  - done.
  - simpl noMatchBefore. intros [H1 H2]%andb_true_iff [|c' p1] p2 Heq Hne Hb.
    + rewrite append_nil in Heq. subst p2. simpl in Hb. subst b.
      by destruct (matchErrorAt (String c pre +:+ rest)).
    + rewrite append_cons in Heq. injection Heq as -> ->.
      by apply (proj1 (IH _) H2 p1 p2).
  - intros H. simpl noMatchBefore. apply andb_true_iff. split.
    + destruct b; [|done].
      by rewrite (H EmptyString (String c pre)).
    + apply IH. intros p1 p2 -> Hne Hb. by apply (H (String c p1) p2).
Qed.

Lemma span_notNewline_line (l rest : string) :
  hasByte newline l = false ->
  span notNewline (l +:+ String newline rest) = (l, String newline rest).
Proof.
  induction l as [|c l IH]; [done|].
  rewrite hasByte_cons. intros [Hc Hl]%orb_false_iff.
  rewrite append_cons, span_cons. unfold notNewline at 1.
  rewrite Ascii.eqb_sym, Hc. simpl negb. cbv iota. by rewrite IH.
Qed.

(** A line at which the pattern does not match is passed over. *)
Lemma findErrorFrom_skip_line (l rest : string) (b : bool) :
  hasByte newline l = false ->
  (b = true -> matchErrorAt (l +:+ String newline rest) = None) ->
  findErrorFrom b (l +:+ String newline rest) = findErrorFrom true rest.
Proof.
  revert b. induction l as [|c l IH]; intros b Hl Hm.
  - rewrite append_nil, findErrorFrom_cons.
    destruct b; [rewrite append_nil in Hm; by rewrite Hm|done].
  - rewrite hasByte_cons in Hl. apply orb_false_iff in Hl as [Hc Hl].
    rewrite append_cons, findErrorFrom_cons.
    assert ((if b then matchErrorAt (String c (l +:+ String newline rest))
             else None) = None) as ->.
    { destruct b; [|done]. by apply Hm. }
    rewrite Ascii.eqb_sym, Hc. by apply IH.
Qed.

Lemma matchErrorAt_hash (s : string) : matchErrorAt (String "#" s) = None.
Proof. reflexivity. Qed.

Lemma matchErrorAt_drive (drive : ascii) (path : string) :
  notColonHash drive = true -> startsWithDigit path = false ->
  matchErrorAt (String drive (String ":" path)) = None.
Proof.
  intros Hd Hp. unfold matchErrorAt. rewrite span_cons, Hd.
  change (span notColonHash (String ":" path)) with (EmptyString, String ":" path).
  simpl. destruct path as [|c path]; [done|].
  simpl in Hp. by rewrite span_cons, Hp.
Qed.

Lemma span_append (p : ascii -> bool) (s : string) :
  s = (span p s).1 +:+ (span p s).2.
Proof.
  induction s as [|c s IH]; [done|].
  rewrite span_cons. destruct (p c); [|done].
  simpl. by rewrite append_cons, <- IH.
Qed.

Lemma stripPrefix_colon (s r : string) :
  stripPrefix ":" s = Some r -> s = String ":" r.
Proof.
  destruct s as [|c s]; [done|].
  change (stripPrefix ":" (String c s))
    with (if Ascii.eqb ":" c then Some s else None).
  destruct (Ascii.eqb ":" c) eqn:E; [|done].
  apply Ascii.eqb_eq in E. subst c. by intros [= ->].
Qed.

(** A match starts with group 1 and a colon. *)
Lemma matchErrorAt_shape (s : string) (m : ErrorMatch) :
  matchErrorAt s = Some m ->
  exists rest, s = group1 m +:+ String ":" rest.
Proof.
  intros Hm. destruct (matchErrorAt_group1 s m Hm) as [Hg _].
  unfold matchErrorAt in Hm.
  destruct (isEmpty (span notColonHash s).1); [done|].
  destruct (stripPrefix ":" (span notColonHash s).2) as [r1|] eqn:E1;
    [|done].
  apply stripPrefix_colon in E1. exists r1.
  rewrite Hg, <- E1. apply span_append.
Qed.

Lemma findErrorFrom_here (s : string) (m : ErrorMatch) :
  matchErrorAt s = Some m -> findErrorFrom true s = Some m.
Proof.
  intros H. destruct s as [|c s]; [by vm_compute in H|].
  by rewrite findErrorFrom_cons, H.
Qed.

Lemma newCompileError_same_match (w : World) (o1 o2 : string) :
  findError o1 = findError o2 ->
  (newCompileError w o1).2 = (newCompileError w o2).2.
Proof.
  intros H. unfold newCompileError. rewrite H.
  destruct (findError o2); [|done]. by destruct (ReadLines w _).
Qed.

Lemma newCompileError_fields (w : World) (output : string) (m : ErrorMatch) :
  findError output = Some m ->
  Error.Path (newCompileError w output).2 = group1 m
  /\ Error.Line (newCompileError w output).2 = Atoi (group2 m)
  /\ Error.Description (newCompileError w output).2 = group4 m.
Proof.
  intros H. unfold newCompileError. rewrite H.
  by destruct (ReadLines w _).
Qed.

Lemma matchErrorAt_diagLine (post : string) :
  lineEnd post = true ->
  matchErrorAt (diagLine +:+ post)
  = Some (mkErrorMatch "controllers/app.go" "42" (Some "10:") "undefined: Foo").
Proof.
  destruct post as [|c post]; [intros _; by vm_compute|].
  simpl. intros ->%Ascii.eqb_eq. by vm_compute.
Qed.

(** When no line start before that of the line
    controllers/app.go:42:10: undefined: Foo gives a match, the error
    returned by [newCompileError] has that path, line 42 and that
    description. *)
Lemma newCompileError_diagLine (w : World) (pre post : string) :
  noMatchBefore true pre (diagLine +:+ post) = true ->
  endsAtLineStart true pre = true ->
  lineEnd post = true ->
  Error.Path (newCompileError w (pre +:+ diagLine +:+ post)).2
    = "controllers/app.go"
  /\ Error.Line (newCompileError w (pre +:+ diagLine +:+ post)).2 = 42%Z
  /\ Error.Description (newCompileError w (pre +:+ diagLine +:+ post)).2
    = "undefined: Foo".
Proof.
  intros Hpre Hbol Hpost.
  assert (findError (pre +:+ diagLine +:+ post)
          = Some (mkErrorMatch "controllers/app.go" "42" (Some "10:")
                    "undefined: Foo")) as Hm.
  { unfold findError. rewrite findErrorFrom_skip by done. rewrite Hbol.
    by apply findErrorFrom_here, matchErrorAt_diagLine. }
  destruct (newCompileError_fields w _ _ Hm) as (-> & -> & ->). done.
Qed.

Lemma newCompileError_diagLine_witness :
  Error.Path (newCompileError quietWorld
                (headerLine +:+ diagLine +:+ nextLine)).2
    = "controllers/app.go"
  /\ Error.Line (newCompileError quietWorld
                   (headerLine +:+ diagLine +:+ nextLine)).2 = 42%Z
  /\ Error.Description (newCompileError quietWorld
                          (headerLine +:+ diagLine +:+ nextLine)).2
    = "undefined: Foo".
Proof.
  apply (newCompileError_diagLine quietWorld headerLine nextLine);
    vm_compute; reflexivity.
Defined.

(** C3.  The output is the line go build failed followed by the line
    controllers/app.go:42:10: undefined: Foo.  The first line has not the
    shape of a diagnostic and the second has, so the second is the first
    matching line.  The error returned has line 42 and the description of
    the second line, but its path is not controllers/app.go: the path of
    the match is a run of bytes other than colon and hash, a newline is
    such a byte, and the path returned holds the first line, the newline
    and then controllers/app.go.  The same happens after an empty line. *)
Theorem newCompileError_path_over_lines :
  matchErrorAt "go build failed" = None
  /\ matchErrorAt diagLine
     = Some (mkErrorMatch "controllers/app.go" "42" (Some "10:")
               "undefined: Foo")
  /\ Error.Path (newCompileError quietWorld precededOutput).2
     = "go build failed" +:+ nl +:+ "controllers/app.go"
  /\ Error.Path (newCompileError quietWorld precededOutput).2
     <> "controllers/app.go"
  /\ Error.Line (newCompileError quietWorld precededOutput).2 = 42%Z
  /\ Error.Description (newCompileError quietWorld precededOutput).2
     = "undefined: Foo"
  /\ Error.Path (newCompileError quietWorld (nl +:+ diagLine)).2
     = nl +:+ "controllers/app.go".
Proof.
  split; [by vm_compute|]. split; [by vm_compute|].
  split; [by vm_compute|]. split; [by vm_compute|].
  split; [by vm_compute|]. split; by vm_compute.
Qed.

(** C6, as amended.  When the pattern matches at no line start of the
    output, a match being allowed to run over line ends inside its path,
    [newCompileError] returns the generic error: no path, no line, no
    source lines, and the fixed description that sends the reader to the
    console; the raw output is not in the error, it is written to the error
    log. *)
Theorem newCompileError_unparsable (w : World) (output : string) :
  noDiagnostic output ->
  (newCompileError w output).2
  = Error.mk "Go code" "Go Compilation Error" EmptyString
      "See console for build error." 0 [] EmptyString
  /\ (newCompileError w output).1
     = [Log ERROR (Sprintln ["Failed to parse build errors:" +:+ nl; output])].
Proof.
  intros H%findError_None. unfold newCompileError. by rewrite H.
Qed.

Lemma newCompileError_unparsable_witness :
  Error.Path (newCompileError quietWorld "exit status 2").2 = EmptyString
  /\ Error.Description (newCompileError quietWorld "exit status 2").2
     = "See console for build error.".
Proof.
  assert (noDiagnostic "exit status 2") as H
    by (apply findError_None; vm_compute; reflexivity).
  destruct (newCompileError_unparsable quietWorld "exit status 2" H) as [E _].
  rewrite E. split; reflexivity.
Defined.

(** C6, as stated, fails: the description is not the text of the claim
    and does not hold the raw output.  Nor is the generic error returned
    for every output without a line of the shape: neither line of the
    output foo, newline, :12: x has it, and the error returned has the path
    foo followed by a newline, and line 12. *)
Lemma newCompileError_generic_description :
  findError "exit status 2" = None
  /\ Error.Description (newCompileError quietWorld "exit status 2").2
     = "See console for build error."
  /\ Error.Description (newCompileError quietWorld "exit status 2").2
     <> "see console output"
  /\ matchErrorAt "foo" = None
  /\ matchErrorAt ":12: x" = None
  /\ Error.Path (newCompileError quietWorld splitOutput).2 = "foo" +:+ nl
  /\ Error.Line (newCompileError quietWorld splitOutput).2 = 12%Z.
Proof.
  split; [by vm_compute|]. split; [by vm_compute|].
  split; [by vm_compute|]. split; [by vm_compute|].
  split; [by vm_compute|]. split; by vm_compute.
Qed.

(** C7.  When a line matches and the file it names cannot be read, the
    error still has the path, the line and the description of the match;
    it has no source lines, and its meta error is the absolute file name
    followed by the read error. *)
Theorem newCompileError_unreadable (w : World) (output : string)
    (m : ErrorMatch) (err : string) :
  findError output = Some m ->
  ReadLines w (filepath_Abs w (group1 m)) = inl err ->
  (newCompileError w output).2
  = Error.mk "Go code" "Go Compilation Error" (group1 m) (group4 m)
      (Atoi (group2 m)) []
      (filepath_Abs w (group1 m) +:+ ": " +:+ err)
  /\ Error.Path (newCompileError w output).2 <> EmptyString
  /\ Error.MetaError (newCompileError w output).2 <> EmptyString
  /\ (newCompileError w output).1
     = [Log ERROR (Sprintln [filepath_Abs w (group1 m) +:+ ": " +:+ err])].
Proof.
  intros Hm Hread. unfold newCompileError. rewrite Hm, Hread. simpl.
  split; [done|]. split; [|split; [|done]].
  - apply findErrorFrom_match in Hm as (pre & rest & _ & _ & Hm).
    apply matchErrorAt_group1 in Hm as [_ Hne]. by destruct (group1 m).
  - intros H. destruct (filepath_Abs w (group1 m)); discriminate.
Qed.

Lemma newCompileError_unreadable_witness :
  (newCompileError quietWorld diagLine).2
  = Error.mk "Go code" "Go Compilation Error" "controllers/app.go"
      "undefined: Foo" 42 []
      "/gopath/src/controllers/app.go: no such file or directory".
Proof.
  destruct (newCompileError_unreadable quietWorld diagLine
              (mkErrorMatch "controllers/app.go" "42" (Some "10:")
                 "undefined: Foo")
              "no such file or directory" eq_refl eq_refl) as [E _].
  exact E.
Defined.

(** C10.  A path returned by [newCompileError] holds no colon and no
    hash: a match starts at a line start, with its path and then a colon.
    Hence a line that begins with a hash is passed over, and so is a line
    that begins with a drive letter, a colon and no digit: the error is the
    one of the rest of the output. *)
Theorem newCompileError_path_bytes (w : World) (output : string) :
  (Error.Path (newCompileError w output).2 <> EmptyString ->
   hasByte ":" (Error.Path (newCompileError w output).2) = false
   /\ hasByte "#" (Error.Path (newCompileError w output).2) = false
   /\ exists pre rest,
        output
        = pre +:+ Error.Path (newCompileError w output).2 +:+ String ":" rest
        /\ endsAtLineStart true pre = true)
  /\ (forall header,
        hasByte newline header = false ->
        (newCompileError w (String "#" header +:+ String newline output)).2
        = (newCompileError w output).2)
  /\ (forall drive path,
        notColonHash drive = true -> startsWithDigit path = false ->
        hasByte newline (String drive (String ":" path)) = false ->
        (newCompileError w
           (String drive (String ":" path) +:+ String newline output)).2
        = (newCompileError w output).2).
Proof.
  split; [|split].
  - destruct (findError output) as [m|] eqn:Hm.
    + destruct (newCompileError_fields w output m Hm) as (-> & _ & _).
      intros _.
      apply findErrorFrom_match in Hm as (pre & rest & -> & Hpre & Hm).
      destruct (matchErrorAt_shape rest m Hm) as [rest' ->].
      apply matchErrorAt_group1 in Hm as [Hg _].
      split; [|split].
      * destruct (hasByte ":" (group1 m)) eqn:E; [|done].
        rewrite Hg in E. by apply span_fst_all in E.
      * destruct (hasByte "#" (group1 m)) eqn:E; [|done].
        rewrite Hg in E. by apply span_fst_all in E.
      * eauto.
    + unfold newCompileError. by rewrite Hm.
  - intros header Hh. apply newCompileError_same_match. unfold findError.
    apply findErrorFrom_skip_line.
    + rewrite hasByte_cons, Hh. done.
    + intros _. apply matchErrorAt_hash.
  - intros drive path Hd Hp Hl. apply newCompileError_same_match.
    unfold findError. apply findErrorFrom_skip_line; [done|].
    intros _. rewrite !append_cons.
    destruct path as [|c path].
    + rewrite append_nil. unfold matchErrorAt. rewrite span_cons, Hd.
      done.
    + rewrite append_cons. by apply matchErrorAt_drive.
Qed.

(** ** The retry loop *)

Lemma execs_app (tr1 tr2 : list Event) :
  execs (tr1 ++ tr2) = execs tr1 ++ execs tr2.
Proof.
  induction tr1 as [|e tr1 IH]; [done|].
  destruct e; simpl; by rewrite ?IH.
Qed.

Lemma builds_app (tr1 tr2 : list Event) :
  builds (tr1 ++ tr2) = builds tr1 ++ builds tr2.
Proof. unfold builds. by rewrite execs_app, List.filter_app. Qed.

Lemma buildCount_app (tr1 tr2 : list Event) :
  buildCount (tr1 ++ tr2) = buildCount tr1 + buildCount tr2.
Proof. unfold buildCount. by rewrite builds_app, length_app. Qed.

Lemma fetched_app (tr1 tr2 : list Event) :
  fetched (tr1 ++ tr2) = fetched tr1 ++ fetched tr2.
Proof. unfold fetched. by rewrite execs_app, flat_map_app. Qed.

Lemma newCompileError_execs (w : World) (output : string) :
  execs (newCompileError w output).1 = [].
Proof.
  unfold newCompileError. destruct (findError output); [|done].
  by destruct (ReadLines w _).
Qed.

Section Loop.
Context (w : World) (goPath buildTags binName : string).

Local Abbreviation args := (buildArgs w goPath buildTags binName).

(** The turn, case by case. *)
Lemma Build_iteration_eq (gotten : gmap string unit) (k : nat) :
  Build_iteration w goPath buildTags binName gotten k =
  let r := CombinedOutput w k args in
  if r.2 then (buildEvents args, inl (Built binName))
  else
    match findImportError r.1 with
    | None =>
        (failedBuildEvents args r.1 ++ (newCompileError w r.1).1,
         inl (Failed (newCompileError w r.1).2))
    | Some pkgName =>
        match gotten !! pkgName with
        | Some _ =>
            (failedBuildEvents args r.1 ++ (newCompileError w r.1).1,
             inl (Failed (newCompileError w r.1).2))
        | None =>
            let g := CombinedOutput w (S k) (getArgs goPath pkgName) in
            if g.2 then
              (failedBuildEvents args r.1 ++ fetchEvents goPath pkgName,
               inr (<[pkgName := tt]> gotten, S (S k)))
            else
              (failedBuildEvents args r.1 ++ fetchEvents goPath pkgName
                 ++ [Log TRACE (Sprintln [g.1])] ++ (newCompileError w r.1).1,
               inl (Failed (newCompileError w r.1).2))
        end
    end.
Proof.
  unfold Build_iteration. simpl.
  destruct (CombinedOutput w k args) as [output ok]. simpl.
  destruct ok; [done|]. unfold bind at 1. simpl. unfold bind at 1. simpl.
  unfold bind at 1. simpl.
  destruct (findImportError output) as [pkgName|]; [|done].
  destruct (gotten !! pkgName); [done|].
  destruct (CombinedOutput w (S k) (getArgs goPath pkgName)) as [gout gok].
  simpl. destruct gok; done.
Qed.

(** A turn that ends the call: one build, at most one fetch, and the
    outcome. *)
Lemma Build_iteration_stop (gotten : gmap string unit) (k : nat)
    (o : Outcome) :
  (Build_iteration w goPath buildTags binName gotten k).2 = inl o ->
  builds (Build_iteration w goPath buildTags binName gotten k).1 = [args]
  /\ (fetched (Build_iteration w goPath buildTags binName gotten k).1 = []
      \/ exists p,
           fetched (Build_iteration w goPath buildTags binName gotten k).1 = [p]
           /\ gotten !! p = None
           /\ (CombinedOutput w k args).2 = false
           /\ findImportError (CombinedOutput w k args).1 = Some p).
Proof.
  rewrite Build_iteration_eq. simpl.
  destruct (CombinedOutput w k args) as [output ok] eqn:Er. simpl.
  destruct ok; [intros _; split; [done|by left]|].
  destruct (findImportError output) as [p|] eqn:Ep.
  - destruct (gotten !! p) eqn:Eg.
    + intros _. unfold builds, fetched. simpl.
      rewrite newCompileError_execs. split; [done|by left].
    + destruct (CombinedOutput w (S k) (getArgs goPath p)) as [gout gok].
      simpl. destruct gok; [done|]. intros _.
      unfold builds, fetched. simpl. rewrite newCompileError_execs. simpl.
      split; [done|]. right. exists p. done.
  - intros _. unfold builds, fetched. simpl.
    rewrite newCompileError_execs. split; [done|by left].
Qed.

(** A turn that goes on: the build failed on a missing package not fetched
    before, and its fetch succeeded. *)
Lemma Build_iteration_continue (gotten gotten' : gmap string unit)
    (k k' : nat) :
  (Build_iteration w goPath buildTags binName gotten k).2
    = inr (gotten', k') ->
  exists p,
    (CombinedOutput w k args).2 = false
    /\ findImportError (CombinedOutput w k args).1 = Some p
    /\ gotten !! p = None
    /\ (CombinedOutput w (S k) (getArgs goPath p)).2 = true
    /\ gotten' = <[p := tt]> gotten /\ k' = S (S k)
    /\ builds (Build_iteration w goPath buildTags binName gotten k).1 = [args]
    /\ fetched (Build_iteration w goPath buildTags binName gotten k).1 = [p].
Proof.
  rewrite Build_iteration_eq. simpl.
  destruct (CombinedOutput w k args) as [output ok] eqn:Er. simpl.
  destruct ok; [done|].
  destruct (findImportError output) as [p|] eqn:Ep; [|done].
  destruct (gotten !! p) eqn:Eg; [done|].
  destruct (CombinedOutput w (S k) (getArgs goPath p)) as [gout gok] eqn:Eg'.
  simpl. destruct gok; [|done]. intros [= <- <-].
  exists p. rewrite Eg'. unfold builds, fetched. simpl.
  done.
Qed.

Opaque Build_iteration.

Lemma Build_loop_S (fuel : nat) (gotten : gmap string unit) (k : nat) :
  Build_loop (S fuel) w goPath buildTags binName gotten k =
  match (Build_iteration w goPath buildTags binName gotten k).2 with
  | inl o => Some ((Build_iteration w goPath buildTags binName gotten k).1, o)
  | inr (gotten', k') =>
      match Build_loop fuel w goPath buildTags binName gotten' k' with
      | Some (evs, o) =>
          Some ((Build_iteration w goPath buildTags binName gotten k).1 ++ evs,
                o)
      | None => None
      end
  end.
Proof. reflexivity. Qed.

(** What holds of every run of the loop that ends. *)
Lemma Build_loop_safe (fuel : nat) (gotten : gmap string unit) (k : nat)
    (tr : list Event) (o : Outcome) :
  Build_loop fuel w goPath buildTags binName gotten k = Some (tr, o) ->
  NoDup (fetched tr)
  /\ (forall p, p ∈ fetched tr -> gotten !! p = None)
  /\ builds tr = replicate (buildCount tr) args
  /\ 1 <= buildCount tr <= length (fetched tr) + 1
  /\ (forall p, p ∈ fetched tr -> exists i, i < buildCount tr
        /\ (CombinedOutput w (k + 2 * i) args).2 = false
        /\ findImportError (CombinedOutput w (k + 2 * i) args).1 = Some p).
Proof.
  revert gotten k tr o. induction fuel as [|fuel IH]; intros gotten k tr o;
    [done|].
  rewrite Build_loop_S.
  destruct (Build_iteration w goPath buildTags binName gotten k).2
    as [o'|[gotten' k']] eqn:Eit.
  - intros [= <- <-].
    destruct (Build_iteration_stop gotten k o' Eit) as [Hb Hf].
    unfold buildCount. rewrite Hb. simpl.
    destruct Hf as [->|[p (-> & Hg & Hr & Hp)]]; simpl.
    + split; [constructor|]. split; [by intros p ?%elem_of_nil|].
      split; [done|]. split; [lia|]. by intros p ?%elem_of_nil.
    + split; [apply NoDup_singleton|].
      split; [by intros p' ->%list_elem_of_singleton|].
      split; [done|]. split; [lia|].
      intros p' ->%list_elem_of_singleton. exists 0.
      rewrite Nat.add_0_r. split; [lia|done].
  - destruct (Build_iteration_continue gotten gotten' k k' Eit)
      as (p & Hr & Hp & Hg & Hget & -> & -> & Hb & Hf).
    destruct (Build_loop fuel w goPath buildTags binName
                (<[p:=tt]> gotten) (S (S k))) as [[evs o']|] eqn:Eloop;
      [|done].
    intros [= <- <-].
    destruct (IH _ _ _ _ Eloop) as (Hnd & Hnew & Hbs & Hcnt & Hrep).
    assert (buildCount (Build_iteration w goPath buildTags binName gotten k).1
            = 1) as Hone by (unfold buildCount; by rewrite Hb).
    rewrite fetched_app, builds_app, buildCount_app, Hf, Hb, Hone.
    split.
    { constructor; [|done]. intros Hin. apply Hnew in Hin.
      by rewrite lookup_insert_eq in Hin. }
    split.
    { intros p' [->|Hin]%elem_of_cons; [done|].
      apply Hnew in Hin. apply lookup_insert_None in Hin as [? _]. done. }
    split; [simpl; by rewrite Hbs at 1|].
    split; [simpl length; lia|].
    intros p' [->|Hin]%elem_of_cons.
    + exists 0. rewrite Nat.add_0_r. split; [lia|done].
    + destruct (Hrep _ Hin) as (i & Hi & Hri & Hpi).
      exists (S i). split; [lia|].
      replace (k + 2 * S i) with (S (S k) + 2 * i) by lia. done.
Qed.

(** More fuel does not change a run that ends. *)
Lemma Build_loop_more_fuel (fuel fuel' : nat) (gotten : gmap string unit)
    (k : nat) (r : list Event * Outcome) :
  Build_loop fuel w goPath buildTags binName gotten k = Some r ->
  fuel <= fuel' ->
  Build_loop fuel' w goPath buildTags binName gotten k = Some r.
Proof.
  revert fuel' gotten k r.
  induction fuel as [|fuel IH]; intros fuel' gotten k r; [done|].
  destruct fuel' as [|fuel']; [lia|]. rewrite !Build_loop_S.
  destruct (Build_iteration w goPath buildTags binName gotten k).2
    as [o'|[gotten' k']]; [done|].
  destruct (Build_loop fuel w goPath buildTags binName gotten' k')
    as [[evs o']|] eqn:E; [|done].
  intros [= <-] Hle. by rewrite (IH fuel' _ _ _ E) by lia.
Qed.

(** The loop ends when the missing packages come from a finite set. *)
Lemma Build_loop_ends (U : gset string) :
  (forall k p, (CombinedOutput w k args).2 = false ->
     findImportError (CombinedOutput w k args).1 = Some p -> p ∈ U) ->
  forall fuel gotten k,
    dom gotten ⊆ U -> size U < fuel + size (dom gotten) ->
    is_Some (Build_loop fuel w goPath buildTags binName gotten k).
Proof.
  intros HU. induction fuel as [|fuel IH]; intros gotten k Hsub Hsize.
  - apply subseteq_size in Hsub. lia.
  - rewrite Build_loop_S.
    destruct (Build_iteration w goPath buildTags binName gotten k).2
      as [o'|[gotten' k']] eqn:Eit; [eauto|].
    destruct (Build_iteration_continue gotten gotten' k k' Eit)
      as (p & Hr & Hp & Hg & Hget & -> & -> & Hb & Hf).
    assert (p ∉ dom gotten) as Hnotin by (by apply not_elem_of_dom).
    destruct (IH (<[p:=tt]> gotten) (S (S k))) as [[evs o'] ->]; [| |eauto].
    + rewrite dom_insert. apply union_subseteq. split; [|done].
      apply singleton_subseteq_l. by eapply HU.
    + rewrite dom_insert_L, size_union, size_singleton by set_solver. lia.
Qed.

Transparent Build_iteration.

End Loop.

Section Session.
Context (w : World) (goPath buildTags binName : string).

Local Abbreviation args := (buildArgs w goPath buildTags binName).

Opaque Build_iteration.

(** The state after [j] turns that went on. *)
Lemma runIterations_inv (j : nat) (gotten : gmap string unit) (k : nat)
    (evs : list Event) (gotten' : gmap string unit) (k' : nat) :
  runIterations j w goPath buildTags binName gotten k
    = Some (evs, (gotten', k')) ->
  k' = k + 2 * j
  /\ buildCount evs = j
  /\ NoDup (fetched evs)
  /\ (forall p, p ∈ fetched evs -> gotten !! p = None)
  /\ (forall p, is_Some (gotten' !! p)
        <-> is_Some (gotten !! p) \/ p ∈ fetched evs)
  /\ (forall i p, i < j ->
        findImportError (CombinedOutput w (k + 2 * i) args).1 = Some p ->
        p ∈ fetched evs).
Proof.
  revert gotten k evs. induction j as [|j IH]; intros gotten k evs.
  - simpl. intros [= <- <- <-].
    split; [lia|]. split; [done|]. split; [constructor|].
    split; [by intros p ?%elem_of_nil|].
    split; [|intros; lia].
    intros p. split; [by left|]. by intros [?|?%elem_of_nil].
  - simpl.
    destruct (Build_iteration w goPath buildTags binName gotten k).2
      as [o'|[g1 k1]] eqn:Eit; [done|].
    destruct (Build_iteration_continue w goPath buildTags binName
                gotten g1 k k1 Eit)
      as (p & Hr & Hp & Hg & Hget & -> & -> & Hb & Hf).
    destruct (runIterations j w goPath buildTags binName (<[p:=tt]> gotten)
                (S (S k))) as [[evs1 st]|] eqn:Erun; [|done].
    intros [= <- ->].
    destruct (IH _ _ _ Erun) as (Hk & Hcnt & Hnd & Hnew & Hdom & Hrep).
    assert (buildCount (Build_iteration w goPath buildTags binName gotten k).1
            = 1) as Hone by (unfold buildCount; by rewrite Hb).
    rewrite fetched_app, buildCount_app, Hf, Hone.
    change ([p] ++ fetched evs1) with (p :: fetched evs1).
    split; [lia|]. split; [lia|]. split.
    { constructor; [|done]. intros Hin. apply Hnew in Hin.
      by rewrite lookup_insert_eq in Hin. }
    split.
    { intros p' [->|Hin]%elem_of_cons; [done|].
      apply Hnew in Hin. apply lookup_insert_None in Hin as [? _]. done. }
    split.
    { intros p'. rewrite Hdom, lookup_insert_is_Some, elem_of_cons.
      split.
      - intros [[->|[_ ?]]|?]; auto.
      - intros [?|[->|?]]; auto.
        destruct (decide (p = p')); auto. }
    intros i p' Hi Hp'. destruct i as [|i].
    + rewrite Nat.add_0_r, Hp in Hp'. injection Hp' as ->.
      apply elem_of_cons. by left.
    + apply elem_of_cons. right. apply (Hrep i); [lia|].
      replace (S (S k) + 2 * i) with (k + 2 * S i) by lia. done.
Qed.

(** The loop goes through the turns of [runIterations] first. *)
Lemma Build_loop_after (j fuel : nat) (gotten : gmap string unit) (k : nat)
    (evs : list Event) (st : gmap string unit * nat) :
  runIterations j w goPath buildTags binName gotten k = Some (evs, st) ->
  Build_loop (j + fuel) w goPath buildTags binName gotten k =
  match Build_loop fuel w goPath buildTags binName st.1 st.2 with
  | Some (tr, o) => Some (evs ++ tr, o)
  | None => None
  end.
Proof.
  revert gotten k evs. induction j as [|j IH]; intros gotten k evs.
  - simpl. intros [= <- <-]. simpl.
    by destruct (Build_loop fuel w goPath buildTags binName gotten k)
      as [[??]|].
  - simpl runIterations. change (S j + fuel) with (S (j + fuel)).
    rewrite Build_loop_S.
    destruct (Build_iteration w goPath buildTags binName gotten k).2
      as [o'|[g1 k1]] eqn:Eit; [done|].
    destruct (runIterations j w goPath buildTags binName g1 k1)
      as [[evs1 st1]|] eqn:Erun; [|done].
    intros [= <- <-]. rewrite (IH _ _ _ Erun).
    destruct (Build_loop fuel w goPath buildTags binName st1.1 st1.2)
      as [[tr o]|]; [|done].
    by rewrite app_assoc.
Qed.

(** The turn at which the loop gives up: the build fails on a missing
    package that was fetched before, or whose fetch fails. *)
Lemma Build_iteration_gives_up (gotten : gmap string unit) (k : nat)
    (output p : string) :
  CombinedOutput w k args = (output, false) ->
  findImportError output = Some p ->
  is_Some (gotten !! p)
  \/ (CombinedOutput w (S k) (getArgs goPath p)).2 = false ->
  (Build_iteration w goPath buildTags binName gotten k).2
    = inl (Failed (newCompileError w output).2)
  /\ builds (Build_iteration w goPath buildTags binName gotten k).1 = [args]
  /\ fetched (Build_iteration w goPath buildTags binName gotten k).1
     = match gotten !! p with Some _ => [] | None => [p] end.
Proof.
  intros Hr Hp Hcase. rewrite Build_iteration_eq. simpl. rewrite Hr. simpl.
  rewrite Hp. destruct (gotten !! p) as [u|] eqn:Eg.
  - unfold builds, fetched. simpl. by rewrite newCompileError_execs.
  - destruct Hcase as [[u Hu]|Hget]; [done|]. rewrite Hget.
    unfold builds, fetched. simpl. by rewrite newCompileError_execs.
Qed.

Transparent Build_iteration.

End Session.

(** ** Build *)

Lemma Build_prepare_eq (w : World) (source : string) :
  Build_prepare w source =
  match os_Mkdir w (tmpPath w) with
  | Some err =>
      (RemoveAll (tmpPath w) :: removeLog w
         ++ [Mkdir (tmpPath w);
             Log ERROR ("Failed to make tmp directory: " +:+ err)],
       inl Exited)
  | None =>
      match os_Create w (mainGo w) with
      | Some err =>
          (RemoveAll (tmpPath w) :: removeLog w
             ++ [Mkdir (tmpPath w); Create (mainGo w);
                 Log ERROR ("Failed to create main.go: " +:+ err)],
           inl Exited)
      | None =>
          match file_WriteString w (mainGo w) source with
          | Some err =>
              (RemoveAll (tmpPath w) :: removeLog w
                 ++ [Mkdir (tmpPath w); Create (mainGo w);
                     WriteString (mainGo w) source;
                     Log ERROR ("Failed to write to main.go: " +:+ err)],
               inl Exited)
          | None =>
              (RemoveAll (tmpPath w) :: removeLog w
                 ++ [Mkdir (tmpPath w); Create (mainGo w);
                     WriteString (mainGo w) source],
               inr tt)
          end
      end
  end.
Proof.
  unfold Build_prepare, removeLog.
  destruct (os_RemoveAll w (tmpPath w)), (os_Mkdir w (tmpPath w)),
    (os_Create w (mainGo w)), (file_WriteString w (mainGo w) source);
    reflexivity.
Qed.

Lemma Build_toolchain_execs (w : World) : execs (Build_toolchain w).1 = [].
Proof.
  unfold Build_toolchain.
  destruct (exec_LookPath w "go"); [done|].
  by destruct (build_Import w (ImportPath w)).
Qed.

Lemma Build_prepare_execs (w : World) (source : string) :
  execs (Build_prepare w source).1 = [].
Proof.
  rewrite Build_prepare_eq. unfold removeLog.
  destruct (os_RemoveAll w (tmpPath w)), (os_Mkdir w (tmpPath w)),
    (os_Create w (mainGo w)), (file_WriteString w (mainGo w) source);
    reflexivity.
Qed.

Lemma bind_execs {A B} (m : Run A) (f : A -> Run B) :
  execs m.1 = [] -> (forall a, execs (f a).1 = []) -> execs (bind m f).1 = [].
Proof.
  intros Hm Hf. unfold bind. destruct m as [tr [o|a]]; simpl in *; [done|].
  by rewrite execs_app, Hm, Hf.
Qed.

(** No command is run before the loop. *)
Lemma Build_setup_execs (w : World) (src0 : SourceInfo.t) :
  execs (Build_setup w src0).1 = [].
Proof.
  unfold Build_setup. apply bind_execs.
  - apply Build_prepare_execs.
  - intros _. apply Build_toolchain_execs.
Qed.

Lemma Build_setup_stops (fuel : nat) (w : World) (src0 : SourceInfo.t)
    (o : Outcome) :
  ProcessSource w = inr src0 -> (Build_setup w src0).2 = inl o ->
  Build fuel w = Some ((Build_setup w src0).1, o).
Proof. intros Hs Hpre. unfold Build. by rewrite Hs, Hpre. Qed.

Lemma Build_runs_loop (fuel : nat) (w : World) (src0 : SourceInfo.t)
    (goPath buildTags binName : string) :
  ProcessSource w = inr src0 ->
  (Build_setup w src0).2 = inr (goPath, buildTags, binName) ->
  Build fuel w =
  match Build_loop fuel w goPath buildTags binName ∅ 0 with
  | Some (evs, o) =>
      Some ((Build_setup w src0).1 ++ evs ++ [Close (mainGo w)], o)
  | None => None
  end.
Proof. intros Hs Hpre. unfold Build. by rewrite Hs, Hpre. Qed.

Lemma builds_around (pre evs : list Event) (path : string) :
  execs pre = [] ->
  builds (pre ++ evs ++ [Close path]) = builds evs
  /\ fetched (pre ++ evs ++ [Close path]) = fetched evs
  /\ buildCount (pre ++ evs ++ [Close path]) = buildCount evs.
Proof.
  intros Hpre. unfold buildCount, builds, fetched.
  rewrite !execs_app, Hpre. simpl. by rewrite app_nil_r.
Qed.

Lemma length_le_size (l : list string) (E : gset string) :
  NoDup l -> (forall p, p ∈ l -> p ∈ E) -> length l <= size E.
Proof.
  intros Hnd Hsub. rewrite <- (size_list_to_set (C := gset string) l Hnd).
  apply subseteq_size. intros p Hp. apply Hsub.
  by apply elem_of_list_to_set in Hp.
Qed.

(** What holds of every call of [Build] that ends. *)
Lemma Build_safe (w : World) (fuel : nat) (tr : list Event) (o : Outcome) :
  Build fuel w = Some (tr, o) ->
  NoDup (fetched tr)
  /\ (forall p, p ∈ fetched tr -> reported w tr p)
  /\ buildCount tr <= length (fetched tr) + 1.
Proof.
  unfold Build at 1.
  destruct (ProcessSource w) as [e|src0] eqn:Hs.
  { intros [= <- <-]. split; [constructor|].
    split; [by intros p ?%elem_of_nil|]. unfold buildCount. simpl. lia. }
  cbv zeta.
  destruct (Build_setup w src0).2 as [o'|[[goPath buildTags] binName]] eqn:Hpre.
  { intros [= <- <-]. unfold fetched, buildCount, builds.
    rewrite Build_setup_execs. simpl. split; [constructor|].
    split; [by intros p ?%elem_of_nil|]. lia. }
  destruct (Build_loop fuel w goPath buildTags binName ∅ 0)
    as [[evs o']|] eqn:Eloop; [|done].
  intros [= <- <-].
  destruct (builds_around (Build_setup w src0).1 evs (mainGo w)
              (Build_setup_execs w src0)) as (Hb & Hf & Hc).
  destruct (Build_loop_safe w goPath buildTags binName _ _ _ _ _ Eloop)
    as (Hnd & _ & Hbs & Hcnt & Hrep).
  unfold reported. rewrite Hb, Hf, Hc.
  split; [done|]. split; [|lia].
  intros p Hp. destruct (Hrep p Hp) as (i & Hi & Hri & Hpi).
  exists i, (buildArgs w goPath buildTags binName).
  split; [|done]. rewrite Hbs. by apply lookup_replicate_2.
Qed.

(** C2, as amended.  After any number of turns of the retry loop, no
    package was fetched twice.  When a call of [Build] ends, no package was
    fetched twice, every fetched package was named by the missing-import
    diagnostic of a failed build of that call, and the number of builds is
    at most one more than the number of different packages so named.  The
    call does end, within [size U + 1] builds, when the packages that the
    toolchain names as missing all come from a finite set [U]. *)
Theorem Build_retry_bound (w : World) :
  (forall goPath buildTags binName j evs st,
     runIterations j w goPath buildTags binName ∅ 0 = Some (evs, st) ->
     NoDup (fetched evs) /\ buildCount evs = j)
  /\ (forall fuel tr o, Build fuel w = Some (tr, o) ->
     NoDup (fetched tr)
     /\ (forall p, p ∈ fetched tr -> reported w tr p)
     /\ buildCount tr <= length (fetched tr) + 1
     /\ forall E : gset string,
          (forall p, reported w tr p -> p ∈ E) -> buildCount tr <= size E + 1)
  /\ (forall U : gset string,
        (forall k args p, (CombinedOutput w k args).2 = false ->
           findImportError (CombinedOutput w k args).1 = Some p -> p ∈ U) ->
        exists tr o,
          (forall fuel, size U < fuel -> Build fuel w = Some (tr, o))
          /\ buildCount tr <= size U + 1).
Proof.
  split; [|split].
  - intros goPath buildTags binName j evs [gotten k] Hrun.
    destruct (runIterations_inv w goPath buildTags binName j ∅ 0 evs gotten k
                Hrun) as (_ & Hcnt & Hnd & _).
    done.
  - intros fuel tr o Hrun.
    destruct (Build_safe w fuel tr o Hrun) as (Hnd & Hrep & Hcnt).
    split; [done|]. split; [done|]. split; [done|].
    intros E HE. pose proof (length_le_size (fetched tr) E Hnd) as Hlen.
    assert (length (fetched tr) <= size E) by (apply Hlen; auto). lia.
  - intros U HU.
    assert (forall tr o, Build (S (size U)) w = Some (tr, o) ->
              buildCount tr <= size U + 1) as Hbound.
    { intros tr o Hrun.
      destruct (Build_safe w _ tr o Hrun) as (Hnd & Hrep & Hcnt).
      assert (length (fetched tr) <= size U); [|lia].
      apply length_le_size; [done|]. intros p Hp.
      destruct (Hrep p Hp) as (i & a & _ & Hr & Hf). by eapply HU. }
    destruct (ProcessSource w) as [e|src0] eqn:Hs.
    { exists [], (Failed e). split; [|unfold buildCount; simpl; lia].
      intros fuel _. unfold Build. by rewrite Hs. }
    destruct (Build_setup w src0).2 as [o'|[[goPath buildTags] binName]]
      eqn:Hpre.
    { exists (Build_setup w src0).1, o'. split.
      - intros fuel _. by apply Build_setup_stops.
      - apply (Hbound _ o'). by apply Build_setup_stops. }
    destruct (Build_loop_ends w goPath buildTags binName U
                (fun k p => HU k _ p) (S (size U)) ∅ 0)
      as [[evs o'] Eloop].
    { rewrite dom_empty. apply empty_subseteq. }
    { lia. }
    exists ((Build_setup w src0).1 ++ evs ++ [Close (mainGo w)]), o'.
    assert (forall fuel, size U < fuel ->
              Build fuel w
              = Some ((Build_setup w src0).1 ++ evs ++ [Close (mainGo w)], o'))
      as Hall.
    { intros fuel Hfuel.
      rewrite (Build_runs_loop fuel w src0 goPath buildTags binName Hs Hpre).
      by rewrite (Build_loop_more_fuel w goPath buildTags binName
                    (S (size U)) fuel ∅ 0 _ Eloop) by lia. }
    split; [done|]. apply (Hbound _ o'), Hall. lia.
Qed.

(** *** A toolchain on which the loop never ends *)

Lemma findImportError_skip (c : ascii) (s : string) :
  matchImportErrorAt (String c s) = None ->
  findImportError (String c s) = findImportError s.
Proof.
  intros H.
  change (findImportError (String c s))
    with (match matchImportErrorAt (String c s) with
          | Some p => Some p
          | None => findImportError s
          end).
  by rewrite H.
Qed.

Lemma findImportError_here (s pkgName : string) :
  matchImportErrorAt s = Some pkgName -> findImportError s = Some pkgName.
Proof.
  intros H. destruct s as [|c s]; [by vm_compute in H|].
  change (findImportError (String c s))
    with (match matchImportErrorAt (String c s) with
          | Some p => Some p
          | None => findImportError s
          end).
  by rewrite H.
Qed.

Lemma span_app (p : ascii -> bool) (l : string) (c : ascii) (rest : string) :
  (forall d, hasByte d l = true -> p d = true) -> p c = false ->
  span p (l +:+ String c rest) = (l, String c rest).
Proof.
  intros Hl Hc. induction l as [|d l IH].
  - rewrite append_nil, span_cons, Hc. done.
  - rewrite append_cons, span_cons.
    rewrite (Hl d) by (by rewrite hasByte_cons, Ascii.eqb_refl).
    rewrite IH; [done|]. intros d' Hd'. apply Hl.
    rewrite hasByte_cons, Hd'. by destruct (Ascii.eqb d' d).
Qed.

Lemma findImportError_missingOutput (name : string) :
  hasByte dquote name = false -> isEmpty name = false ->
  findImportError (missingOutput name) = Some name.
Proof.
  intros Hq Hne. unfold missingOutput.
  do 13 (rewrite append_cons, findImportError_skip by reflexivity).
  rewrite append_nil.
  assert (matchImportErrorAt
            (importErrorPrefix +:+ name +:+ importErrorSuffix) = Some name)
    as Hm.
  { unfold matchImportErrorAt.
    change (stripPrefix importErrorPrefix
              (importErrorPrefix +:+ name +:+ importErrorSuffix))
      with (Some (name +:+ importErrorSuffix)).
    cbv beta iota zeta. unfold importErrorSuffix.
    rewrite span_app; [cbn [fst snd]; by rewrite Hne| |done].
    intros d Hd. destruct (Ascii.eqb d dquote) eqn:E; [|done].
    apply Ascii.eqb_eq in E. subst d. congruence. }
  by apply findImportError_here.
Qed.

Lemma hasByte_xs (k : nat) : hasByte dquote ("p" +:+ xs k) = false.
Proof.
  rewrite append_cons, append_nil, hasByte_cons. simpl orb.
  induction k as [|k IH]; [done|]. simpl xs. by rewrite hasByte_cons, IH.
Qed.

Lemma xs_inj (j k : nat) : "p" +:+ xs j = "p" +:+ xs k -> j = k.
Proof.
  intros H. apply (inj (String.app "p")) in H.
  revert k H. induction j as [|j IH]; intros [|k]; simpl; try done.
  intros [= H]. f_equal. by apply IH.
Qed.

Lemma Build_loop_endless (goPath buildTags binName : string) (fuel : nat) :
  forall (gotten : gmap string unit) (k : nat),
    (forall p, is_Some (gotten !! p) -> exists j, j < k /\ p = "p" +:+ xs j) ->
    Build_loop fuel endlessWorld goPath buildTags binName gotten k = None.
Proof.
  induction fuel as [|fuel IH]; intros gotten k Hg; [done|].
  rewrite Build_loop_S, Build_iteration_eq.
  change (CombinedOutput endlessWorld k
            (buildArgs endlessWorld goPath buildTags binName))
    with (missingOutput ("p" +:+ xs k), false).
  cbv zeta. cbn [fst snd].
  rewrite findImportError_missingOutput by (apply hasByte_xs || done).
  destruct (gotten !! ("p" +:+ xs k)) as [u|] eqn:Eg.
  { destruct (Hg ("p" +:+ xs k)) as (j & Hj & Heq); [eauto|].
    apply xs_inj in Heq. lia. }
  change (CombinedOutput endlessWorld (S k) (getArgs goPath ("p" +:+ xs k)))
    with (EmptyString, true).
  cbn [fst snd]. rewrite IH; [done|].
  intros p [Hp|[Hne Hp]]%lookup_insert_is_Some.
  - exists k. split; [lia|done].
  - destruct (Hg p Hp) as (j & Hj & Heq). exists j. split; [lia|done].
Qed.

(** C2, as stated, fails: when every build misses a package not seen
    before and every fetch succeeds, [Build] never returns. *)
Lemma Build_endless : ~ terminates endlessWorld.
Proof.
  intros (fuel & r & Hrun).
  rewrite (Build_runs_loop fuel endlessWorld emptySource "/usr/bin/go"
             EmptyString "/gopath/bin/sample") in Hrun;
    [|reflexivity|by vm_compute].
  rewrite Build_loop_endless in Hrun; [done|].
  intros p [u Hu]. by rewrite lookup_empty in Hu.
Qed.

Lemma Build_retry_bound_witness :
  exists tr o, Build 3 twoMissingWorld = Some (tr, o) /\ buildCount tr <= 3.
Proof.
  destruct (proj2 (proj2 (Build_retry_bound twoMissingWorld))
              {["github.com/lib/pq"; "code.google.com/p/go.net"]})
    as (tr & o & Hrun & Hcnt).
  - intros k args p. simpl. destruct (isGet args); [done|].
    destruct k as [|[|[|k]]]; [|done| |done]; simpl; intros _ Hp;
      vm_compute in Hp; injection Hp as <-; set_solver.
  - exists tr, o. split.
    + apply Hrun. rewrite size_union, !size_singleton by set_solver. lia.
    + rewrite size_union, !size_singleton in Hcnt by set_solver. lia.
Defined.

(** *** The loop gives up *)

(** C4, as amended.  Take a call of [Build] whose first [j] builds each
    failed on a missing package that was then fetched.  If the next build
    fails with output [output], in which the package [P] is missing, and
    either [P] was already missing at one of the first [j] builds or the
    fetch of [P] fails, then the call returns the error that
    [newCompileError] makes of [output]: the output of the build that gives
    up, which comes before the failed fetch, and never the output of the
    fetch.  This build is the last one, and [P] was fetched once. *)
Theorem Build_gives_up (w : World) (src0 : SourceInfo.t)
    (goPath buildTags binName : string) (j : nat) (evs : list Event)
    (st : gmap string unit * nat) (output P : string) :
  ProcessSource w = inr src0 ->
  (Build_setup w src0).2 = inr (goPath, buildTags, binName) ->
  runIterations j w goPath buildTags binName ∅ 0 = Some (evs, st) ->
  CombinedOutput w (2 * j) (buildArgs w goPath buildTags binName)
    = (output, false) ->
  findImportError output = Some P ->
  (exists i, i < j
     /\ findImportError
          (CombinedOutput w (2 * i) (buildArgs w goPath buildTags binName)).1
        = Some P)
  \/ (CombinedOutput w (S (2 * j)) (getArgs goPath P)).2 = false ->
  exists tr,
    (forall fuel, j < fuel ->
       Build fuel w = Some (tr, Failed (newCompileError w output).2))
    /\ buildCount tr = S j
    /\ NoDup (fetched tr) /\ P ∈ fetched tr.
Proof.
  intros Hs Hpre Hrun Hr HP Hcase. destruct st as [gotten k].
  destruct (runIterations_inv w goPath buildTags binName j ∅ 0 evs gotten k
              Hrun) as (Hk & Hcnt & Hnd & _ & Hdom & Hrep).
  simpl in Hk. subst k.
  assert (is_Some (gotten !! P)
          \/ (CombinedOutput w (S (2 * j)) (getArgs goPath P)).2 = false)
    as Hcase'.
  { destruct Hcase as [(i & Hi & HPi)|Hget]; [|by right].
    left. apply Hdom. right. by apply (Hrep i). }
  destruct (Build_iteration_gives_up w goPath buildTags binName gotten
              (2 * j) output P Hr HP Hcase') as (Hout & Hb & Hf).
  set (it := Build_iteration w goPath buildTags binName gotten (2 * j)) in *.
  exists ((Build_setup w src0).1 ++ (evs ++ it.1) ++ [Close (mainGo w)]).
  destruct (builds_around (Build_setup w src0).1 (evs ++ it.1) (mainGo w)
              (Build_setup_execs w src0)) as (_ & Hfa & Hca).
  rewrite Hfa, Hca, buildCount_app, fetched_app, Hf, Hcnt.
  split; [|split; [|split]].
  - intros fuel Hfuel.
    rewrite (Build_runs_loop fuel w src0 goPath buildTags binName Hs Hpre).
    replace fuel with (j + S (fuel - S j)) by lia.
    rewrite (Build_loop_after w goPath buildTags binName j _ ∅ 0 evs
               (gotten, 2 * j) Hrun).
    cbn [fst snd]. rewrite Build_loop_S. fold it. by rewrite Hout.
  - unfold buildCount. rewrite Hb. simpl. lia.
  - destruct (gotten !! P) eqn:Eg; [by rewrite app_nil_r|].
    apply NoDup_app. split; [done|]. split; [|apply NoDup_singleton].
    intros p Hp ->%list_elem_of_singleton.
    assert (is_Some (gotten !! P)) as [u' Hu] by (apply Hdom; by right).
    congruence.
  - destruct (gotten !! P) eqn:Eg.
    + rewrite app_nil_r.
      assert (is_Some (gotten !! P)) as HS by eauto.
      apply Hdom in HS as [[u' Hu]|?]; [by rewrite lookup_empty in Hu|done].
    + apply elem_of_app. right. by apply list_elem_of_singleton.
Qed.

Lemma Build_gives_up_witness :
  (exists tr,
     Build 2 stillMissingWorld
     = Some (tr, Failed (newCompileError stillMissingWorld
                           (missingOutput "github.com/lib/pq")).2)
     /\ buildCount tr = 2)
  /\ (exists tr,
        Build 1 noFetchWorld
        = Some (tr, Failed (newCompileError noFetchWorld
                              (missingOutput "github.com/lib/pq")).2)
        /\ buildCount tr = 1).
Proof.
  split.
  - edestruct (Build_gives_up stillMissingWorld emptySource "/usr/bin/go"
                 EmptyString "/gopath/bin/sample" 1)
      as (tr & Hrun & Hcnt & _);
      [reflexivity|vm_compute; reflexivity|vm_compute; reflexivity
      |reflexivity|vm_compute; reflexivity
      |left; exists 0; split; [lia|vm_compute; reflexivity]|].
    exists tr. split; [apply Hrun; lia|exact Hcnt].
  - edestruct (Build_gives_up noFetchWorld emptySource "/usr/bin/go"
                 EmptyString "/gopath/bin/sample" 0)
      as (tr & Hrun & Hcnt & _);
      [reflexivity|vm_compute; reflexivity|vm_compute; reflexivity
      |reflexivity|vm_compute; reflexivity
      |right; reflexivity|].
    exists tr. split; [apply Hrun; lia|exact Hcnt].
Defined.

(** C4, as stated, fails: when the package is missing again after its
    fetch, the error is made of the output of the second build, not of the
    output that came before the fetch. *)
Lemma Build_error_of_second_output :
  findImportError (missingOutput "github.com/lib/pq")
    = Some "github.com/lib/pq"
  /\ findImportError (movedOutput "github.com/lib/pq")
     = Some "github.com/lib/pq"
  /\ exists tr e,
       Build 2 movedWorld = Some (tr, Failed e)
       /\ fetched tr = ["github.com/lib/pq"]
       /\ e = (newCompileError movedWorld
                 (movedOutput "github.com/lib/pq")).2
       /\ Error.Path e = "app/init.go"
       /\ Error.Path (newCompileError movedWorld
                        (missingOutput "github.com/lib/pq")).2 = "main.go"
       /\ e <> (newCompileError movedWorld
                  (missingOutput "github.com/lib/pq")).2.
Proof.
  split; [by vm_compute|]. split; [by vm_compute|].
  eexists _, _. split; [vm_compute; reflexivity|].
  split; [reflexivity|]. split; [by vm_compute|].
  split; [reflexivity|]. split; [by vm_compute|].
  by vm_compute.
Qed.

(** *** The scratch directory and main.go *)

Lemma Build_setup_prepare_stops (w : World) (src0 : SourceInfo.t)
    (tr : list Event) (o : Outcome) :
  Build_prepare w (registerControllerSource w (addDbImport w src0))
    = (tr, inl o) ->
  Build_setup w src0 = (tr, inl o).
Proof. intros H. unfold Build_setup, bind. by rewrite H. Qed.

Lemma Build_setup_prepare_done (w : World) (src0 : SourceInfo.t)
    (tr : list Event) :
  Build_prepare w (registerControllerSource w (addDbImport w src0))
    = (tr, inr tt) ->
  (Build_setup w src0).1 = tr ++ (Build_toolchain w).1
  /\ (Build_setup w src0).2 = (Build_toolchain w).2.
Proof. intros H. unfold Build_setup, bind. by rewrite H. Qed.





(** *** The db.import path *)

Lemma append_assoc (a b c : string) : (a +:+ b) +:+ c = a +:+ b +:+ c.
Proof. induction a as [|x a IH]; [done|]. by rewrite !append_cons, IH. Qed.

Lemma append_nil_r (a : string) : a +:+ EmptyString = a.
Proof. induction a as [|x a IH]; [done|]. by rewrite append_cons, IH. Qed.





(** * Further properties *)

(** ** The alias resolver, beyond the claims *)

(** X1.  [containsValue] answers whether some import path of the table has
    the alias [val]; on the empty table it answers no, and after an entry
    is written for a new key it answers yes for the alias written and as
    before for the others. *)
Theorem containsValue_lookup (m : gmap string string) (val : string) :
  (containsValue m val = true <-> exists k, m !! k = Some val)
  /\ containsValue ∅ val = false
  /\ (forall k a, m !! k = None ->
        containsValue (<[k := a]> m) val
        = (String.eqb a val || containsValue m val)).
Proof.
  split; [apply containsValue_true|]. split; [done|].
  intros k a Hk.
  destruct (String.eqb a val) eqn:Ea; simpl.
  - apply String.eqb_eq in Ea. subst a. apply containsValue_true.
    exists k. apply lookup_insert_eq.
  - apply String.eqb_neq in Ea.
    destruct (containsValue m val) eqn:Em.
    + eapply containsValue_weaken; [|done]. by apply insert_subseteq.
    + apply containsValue_false. intros k' Hk'.
      apply lookup_insert_Some in Hk' as [[_ ?]|[_ Hk']]; [done|].
      rewrite containsValue_false in Em. by destruct (Em k').
Qed.

(** X2.  The alias made by [makePackageAlias] is held by no entry of the
    table; it is the package name or the package name followed by a
    decimal number; and the loop needs no more turns than the table has
    entries. *)
Theorem makePackageAlias_fresh (m : gmap string string) (pkgName : string) :
  containsValue m (makePackageAlias m pkgName) = false
  /\ (makePackageAlias m pkgName = pkgName
      \/ exists j, j < size m /\ makePackageAlias m pkgName = sprintf_sd pkgName j)
  /\ (forall fuel, size m <= fuel ->
        makePackageAlias_loop fuel m pkgName 0 pkgName
        = makePackageAlias m pkgName).
Proof.
  split; [apply makePackageAlias_loop_exits|]. split.
  - destruct (makePackageAlias_spec m pkgName)
      as [[_ E]|[Hp (j & E & Hf & Hmin)]]; [by left|].
    right. exists j. split; [|done].
    destruct (some_candidate_unused m pkgName Hp) as (j' & Hj' & Hf').
    destruct (decide (j < size m)); [done|].
    rewrite Hmin in Hf' by lia. done.
  - intros fuel Hfuel. by apply makePackageAlias_loop_fuel.
Qed.

(** X3.  [addAlias] never changes an entry: a path that has an alias keeps
    it, whatever package name is passed, so a second call for the same
    path changes nothing; a path without alias is added, the table grows by
    one entry, and the alias added differs from every alias already in the
    table. *)
Theorem addAlias_keeps_entries (m : gmap string string)
    (importPath pkgName : string) :
  (forall q a, m !! q = Some a -> addAlias m importPath pkgName !! q = Some a)
  /\ (is_Some (m !! importPath) -> addAlias m importPath pkgName = m)
  /\ (forall pkgName',
        addAlias (addAlias m importPath pkgName) importPath pkgName'
        = addAlias m importPath pkgName)
  /\ (m !! importPath = None ->
      size (addAlias m importPath pkgName) = S (size m)
      /\ exists a, addAlias m importPath pkgName !! importPath = Some a
           /\ forall q, m !! q <> Some a).
Proof.
  split; [|split; [|split]].
  - intros q a Hq. eapply lookup_weaken; [done|]. apply addAlias_extends.
  - intros [a Ha]. unfold addAlias. by rewrite Ha.
  - intros pkgName'. destruct (addAlias_key m importPath pkgName) as [a Ha].
    unfold addAlias at 1. by rewrite Ha.
  - intros Hnew. unfold addAlias. rewrite Hnew. split.
    + by apply map_size_insert_None.
    + exists (makePackageAlias m pkgName). rewrite lookup_insert_eq.
      split; [done|]. apply containsValue_false, makePackageAlias_loop_exits.
Qed.

(** *** The table as a fold over the requests *)

Lemma foldl_flat_map {A B C} (f : A -> C -> A) (g : B -> list C)
    (l : list B) (a : A) :
  foldl f a (flat_map g l) = foldl (fun a b => foldl f a (g b)) a l.
Proof.
  revert a. induction l as [|b l IH]; intros a; [done|].
  simpl. by rewrite foldl_app, IH.
Qed.

Lemma foldl_ext_fun {A B} (f g : A -> B -> A) (l : list B) (a : A) :
  (forall a b, f a b = g a b) -> foldl f a l = foldl g a l.
Proof.
  intros Hfg. revert a. induction l as [|b l IH]; intros a; [done|].
  simpl. by rewrite Hfg, IH.
Qed.

Lemma addSpecAliases_requests (m : gmap string string) (spec : TypeInfo.t) :
  addSpecAliases m spec
  = foldl (fun m r => addAlias m r.1 r.2) m (specRequests spec).
Proof.
  unfold addSpecAliases, specRequests. simpl. rewrite foldl_flat_map.
  apply foldl_ext_fun. intros m' ms. unfold addMethodAliases.
  rewrite foldl_flat_map. apply foldl_ext_fun. intros m'' a.
  unfold addArgAlias, argRequests. by destruct (String.eqb _ _).
Qed.

Lemma typeAliases_requests (src : SourceInfo.t) :
  typeAliases src
  = foldl (fun m r => addAlias m r.1 r.2) ∅ (aliasRequests src).
Proof.
  rewrite typeAliases_foldl. unfold aliasRequests. rewrite foldl_flat_map.
  apply foldl_ext_fun. intros m spec. apply addSpecAliases_requests.
Qed.

Lemma referencedPaths_requests (src : SourceInfo.t) :
  referencedPaths src = (aliasRequests src).*1.
Proof.
  unfold referencedPaths, aliasRequests.
  induction (typeInfos src) as [|spec l IH]; [done|].
  simpl. rewrite fmap_app, IH. f_equal. f_equal.
  unfold argPaths.
  induction (TypeInfo.MethodSpecs spec) as [|ms mss IHm]; [done|].
  simpl. rewrite fmap_app, IHm. f_equal.
  induction (MethodSpec.Args ms) as [|a args IHa]; [done|].
  simpl. rewrite fmap_app, IHa. f_equal.
  unfold argRequests. by destruct (String.eqb _ _).
Qed.

Lemma foldl_addAlias_dom (l : list (string * string))
    (m : gmap string string) :
  dom (foldl (fun m r => addAlias m r.1 r.2) m l)
  = dom m ∪ list_to_set l.*1.
Proof.
  revert m. induction l as [|[p n] l IH]; intros m.
  - simpl. by rewrite union_empty_r_L.
  - simpl. rewrite IH. unfold addAlias.
    destruct (m !! p) eqn:Ep.
    + assert (p ∈ dom m) as Hp by (apply elem_of_dom; eauto).
      apply set_eq. intros q.
      rewrite !elem_of_union, elem_of_singleton. naive_solver.
    + rewrite dom_insert_L. apply set_eq. intros q.
      rewrite !elem_of_union, elem_of_singleton. naive_solver.
Qed.

(** X4.  The keys of the table of [calcImportAliases] are the referenced
    import paths and the init imports, and nothing else; an init import
    that no type or argument uses has the discard alias, and the path of
    an argument without import path is not added for that argument. *)
Theorem calcImportAliases_dom (src : SourceInfo.t) :
  dom (calcImportAliases src)
  = list_to_set (referencedPaths src)
    ∪ list_to_set (SourceInfo.InitImportPaths src)
  /\ (forall p, p ∈ SourceInfo.InitImportPaths src ->
        p ∉ referencedPaths src -> calcImportAliases src !! p = Some "_")
  /\ (EmptyString ∉ SourceInfo.InitImportPaths src ->
      (forall spec, spec ∈ typeInfos src ->
         TypeInfo.ImportPath spec <> EmptyString) ->
      calcImportAliases src !! EmptyString = None).
Proof.
  assert (dom (typeAliases src) = list_to_set (referencedPaths src)) as Hty.
  { rewrite typeAliases_requests, foldl_addAlias_dom, dom_empty_L.
    rewrite referencedPaths_requests. apply union_empty_l_L. }
  assert (forall p, p ∉ referencedPaths src -> typeAliases src !! p = None)
    as Hnone.
  { intros p Hp. apply not_elem_of_dom. rewrite Hty. set_solver. }
  split; [|split].
  - apply set_eq. intros p. rewrite elem_of_dom, calcImportAliases_lookup.
    rewrite elem_of_union, !elem_of_list_to_set.
    destruct (typeAliases src !! p) as [a|] eqn:Ep.
    + split; [|eauto]. intros _. left.
      assert (p ∈ dom (typeAliases src)) as Hd by (apply elem_of_dom; eauto).
      rewrite Hty in Hd. by apply elem_of_list_to_set in Hd.
    + assert (p ∉ referencedPaths src) as Hnot.
      { intros Hin. destruct (typeAliases_keys src p Hin) as [? ?].
        congruence. }
      destruct (decide (p ∈ SourceInfo.InitImportPaths src)).
      * split; eauto.
      * split; [by intros [? ?]|]. intros [?|?]; done.
  - intros p Hinit Hnot. rewrite calcImportAliases_lookup, (Hnone p Hnot).
    by rewrite decide_True.
  - intros Hinit Hspecs. rewrite calcImportAliases_lookup.
    rewrite Hnone; [by rewrite decide_False|].
    unfold referencedPaths. intros Hin.
    apply list_elem_of_In, in_flat_map in Hin as [spec [Hspec Hin]].
    destruct Hin as [Hp|Hin].
    + apply (Hspecs spec); [by apply list_elem_of_In|done].
    + unfold argPaths in Hin. apply in_flat_map in Hin as [ms [_ Hin]].
      apply in_flat_map in Hin as [a [_ Hin]].
      destruct (String.eqb (MethodArg.ImportPath a) EmptyString) eqn:Ea;
        [done|].
      destruct Hin as [Hp|[]]. apply String.eqb_neq in Ea. done.
Qed.

(** *** Aliases without collision, and the shape of an alias *)

Lemma foldl_addAlias_collisionFree (all l : list (string * string))
    (m : gmap string string) :
  collisionFree all ->
  (forall p a, m !! p = Some a -> (p, a) ∈ all) ->
  (forall r, r ∈ l -> r ∈ all) ->
  (forall p a, foldl (fun m r => addAlias m r.1 r.2) m l !! p = Some a ->
     (p, a) ∈ all)
  /\ forall r, r ∈ l ->
       foldl (fun m r => addAlias m r.1 r.2) m l !! r.1 = Some r.2.
Proof.
  intros Hfree. revert m. induction l as [|[p n] l IH]; intros m Hm Hl.
  - split; [done|]. by intros r ?%elem_of_nil.
  - assert ((p, n) ∈ all) as Hpn by (apply Hl; by left).
    assert (addAlias m p n !! p = Some n) as Hstep.
    { unfold addAlias. destruct (m !! p) as [a|] eqn:Ep.
      - rewrite Ep. f_equal.
        by apply (Hfree (p, a) (p, n) (Hm _ _ Ep) Hpn).
      - rewrite lookup_insert_eq. f_equal.
        destruct (makePackageAlias_spec m n) as [[_ E]|[Hc _]]; [done|].
        apply containsValue_true in Hc as [q Hq].
        assert (q = p) as -> by (by apply (Hfree (q, n) (p, n) (Hm _ _ Hq) Hpn)).
        congruence. }
    assert (forall q a, addAlias m p n !! q = Some a -> (q, a) ∈ all) as Hm'.
    { intros q a. unfold addAlias. destruct (m !! p) as [a'|] eqn:Ep; [auto|].
      intros [[<- <-]|[_ Hq]]%lookup_insert_Some; [|auto].
      unfold addAlias in Hstep. rewrite Ep, lookup_insert_eq in Hstep.
      by injection Hstep as ->. }
    destruct (IH (addAlias m p n) Hm') as [Hall Hreq].
    { intros r Hr. apply Hl. by right. }
    simpl. split; [done|].
    intros r [->|Hr]%elem_of_cons; [|by apply Hreq].
    simpl. eapply lookup_weaken; [exact Hstep|].
    apply (foldl_extends (fun m r => addAlias m r.1 r.2)).
    intros m0 r0. apply addAlias_extends.
Qed.

(** X5.  When no two usages collide (a path always comes with the same
    package name, and a package name with the same path), every type and
    every argument is imported under its own package name: no suffix is
    made. *)
Theorem calcImportAliases_no_collision (src : SourceInfo.t) :
  collisionFree (aliasRequests src) ->
  (forall r, r ∈ aliasRequests src -> calcImportAliases src !! r.1 = Some r.2)
  /\ (forall spec, spec ∈ typeInfos src ->
        calcImportAliases src !! TypeInfo.ImportPath spec
        = Some (TypeInfo.PackageName spec)).
Proof.
  intros Hfree.
  assert (forall r, r ∈ aliasRequests src ->
            calcImportAliases src !! r.1 = Some r.2) as Hreq.
  { intros r Hr. rewrite calcImportAliases_lookup, typeAliases_requests.
    destruct (foldl_addAlias_collisionFree (aliasRequests src)
                (aliasRequests src) ∅ Hfree) as [_ H]; [|done|].
    - intros p a Hp. by rewrite lookup_empty in Hp.
    - by rewrite (H r Hr). }
  split; [done|]. intros spec Hspec.
  apply (Hreq (TypeInfo.ImportPath spec, TypeInfo.PackageName spec)).
  unfold aliasRequests. apply list_elem_of_In, in_flat_map.
  exists spec. split; [by apply list_elem_of_In|by left].
Qed.

Lemma calcImportAliases_no_collision_witness :
  calcImportAliases srcPlain !! "sample/app/controllers" = Some "controllers"
  /\ calcImportAliases srcPlain !! "net/url" = Some "url".
Proof.
  assert (collisionFree (aliasRequests srcPlain)) as Hfree.
  { intros r1 r2 H1 H2. vm_compute in H1, H2.
    repeat (apply elem_of_cons in H1 as [->|H1]);
      [..|by apply elem_of_nil in H1];
      repeat (apply elem_of_cons in H2 as [->|H2]);
      try (by apply elem_of_nil in H2); by vm_compute. }
  destruct (calcImportAliases_no_collision srcPlain Hfree) as [Hreq _].
  split.
  - apply (Hreq ("sample/app/controllers", "controllers")).
    vm_compute. by left.
  - apply (Hreq ("net/url", "url")). vm_compute. set_solver.
Defined.

Lemma foldl_addAlias_shape (l : list (string * string))
    (m : gmap string string) (p a : string) :
  foldl (fun m r => addAlias m r.1 r.2) m l !! p = Some a ->
  m !! p = Some a
  \/ exists n, (p, n) ∈ l /\ (a = n \/ exists j, a = sprintf_sd n j).
Proof.
  revert m. induction l as [|[q n] l IH]; intros m; [by left|].
  simpl. intros H. destruct (IH _ H) as [Hstep|(n' & Hin & Ha)].
  - unfold addAlias in Hstep. destruct (m !! q) as [a'|] eqn:Eq; [by left|].
    apply lookup_insert_Some in Hstep as [[<- <-]|[_ Hm]]; [|by left].
    right. exists n. split; [by left|].
    destruct (makePackageAlias_spec m n) as [[_ E]|[_ (j & E & _)]]; eauto.
  - right. exists n'. split; [by right|done].
Qed.

(** X6.  Every alias of the table comes from a usage of its path: it is
    the package name passed with that path by some type or argument, or
    that name followed by a decimal number; or the path is an init import
    and the alias is the discard alias. *)
Theorem calcImportAliases_alias_shape (src : SourceInfo.t) (p a : string) :
  calcImportAliases src !! p = Some a ->
  (exists n, (p, n) ∈ aliasRequests src
     /\ (a = n \/ exists j, a = sprintf_sd n j))
  \/ (p ∈ SourceInfo.InitImportPaths src /\ (p ∉ referencedPaths src)
      /\ a = "_").
Proof.
  rewrite calcImportAliases_lookup.
  destruct (typeAliases src !! p) as [a'|] eqn:Ep.
  - intros [= ->]. left. rewrite typeAliases_requests in Ep.
    apply foldl_addAlias_shape in Ep as [Hp|?]; [|done].
    by rewrite lookup_empty in Hp.
  - case_decide; [|done]. intros [= <-]. right. split; [done|].
    split; [|done]. intros Hin.
    destruct (typeAliases_keys src p Hin) as [? ?]. congruence.
Qed.

Lemma calcImportAliases_alias_shape_witness :
  (exists n, ("y/a", n) ∈ aliasRequests srcFour
     /\ ("a0" = n \/ exists j, "a0" = sprintf_sd n j))
  \/ ("y/a" ∈ SourceInfo.InitImportPaths srcFour
      /\ ("y/a" ∉ referencedPaths srcFour) /\ "a0" = "_").
Proof.
  apply (calcImportAliases_alias_shape srcFour "y/a" "a0"). by vm_compute.
Defined.

(** X7.  The table does not depend on the order of the init imports nor on
    their repetitions: two sources with the same types and the same set of
    init imports have the same table. *)
Theorem calcImportAliases_init_set (src1 src2 : SourceInfo.t) :
  SourceInfo.ControllerSpecs src1 = SourceInfo.ControllerSpecs src2 ->
  SourceInfo.TestSuites src1 = SourceInfo.TestSuites src2 ->
  (forall p, p ∈ SourceInfo.InitImportPaths src1
             <-> p ∈ SourceInfo.InitImportPaths src2) ->
  calcImportAliases src1 = calcImportAliases src2.
Proof.
  intros Hc Ht Hinit. apply map_eq. intros p.
  rewrite !calcImportAliases_lookup.
  assert (typeAliases src1 = typeAliases src2) as ->
    by (unfold typeAliases; by rewrite Hc, Ht).
  destruct (typeAliases src2 !! p); [done|].
  destruct (decide (p ∈ SourceInfo.InitImportPaths src1)) as [H1|H1],
    (decide (p ∈ SourceInfo.InitImportPaths src2)) as [H2|H2]; try done.
  - by apply Hinit in H1.
  - by apply Hinit in H2.
Qed.

Lemma calcImportAliases_init_set_witness :
  calcImportAliases (SourceInfo.mk [ti "x/a" "a"] [] [] ["d1"; "d2"; "d1"])
  = calcImportAliases (SourceInfo.mk [ti "x/a" "a"] [] [] ["d2"; "d1"]).
Proof.
  apply calcImportAliases_init_set; [reflexivity|reflexivity|].
  intros p. simpl. set_solver.
Defined.

(** X18.  Types added after the others do not change the aliases already
    given: when a second source has the same controllers and init imports
    and more test suites at the end, every path referenced by the first
    source has the same alias in both tables. *)
Theorem calcImportAliases_append_stable (src src' : SourceInfo.t)
    (extra : list TypeInfo.t) (p : string) :
  SourceInfo.ControllerSpecs src' = SourceInfo.ControllerSpecs src ->
  SourceInfo.TestSuites src' = SourceInfo.TestSuites src ++ extra ->
  p ∈ referencedPaths src ->
  calcImportAliases src' !! p = typeAliases src !! p
  /\ calcImportAliases src !! p = typeAliases src !! p
  /\ is_Some (typeAliases src !! p).
Proof.
  intros Hc Ht Hp.
  destruct (typeAliases_keys src p Hp) as [a Ha].
  assert (typeAliases src ⊆ typeAliases src') as Hsub.
  { rewrite !typeAliases_foldl. unfold typeInfos. rewrite Hc, Ht.
    rewrite (app_assoc (SourceInfo.ControllerSpecs src)).
    rewrite (foldl_app _ (_ ++ _) extra).
    apply foldl_addSpecAliases_subseteq. }
  rewrite !calcImportAliases_lookup, Ha.
  by rewrite (lookup_weaken _ _ _ _ Ha Hsub).
Qed.

Lemma calcImportAliases_append_stable_witness :
  calcImportAliases srcTwoB !! "y/a" = typeAliases srcTwoA !! "y/a".
Proof.
  apply (calcImportAliases_append_stable srcTwoA srcTwoB
           [ti "z/a0" "a0"; ti "w/a0" "a0"] "y/a");
    [reflexivity|reflexivity|].
  vm_compute. set_solver.
Defined.

(** ** The diagnostic parser, beyond the claims *)

Lemma isDigit_pretty_N_char (d : N) : isDigit (pretty_N_char d) = true.
Proof. unfold pretty_N_char. by repeat case_match. Qed.

Lemma digit_of_pretty_N_char (d : N) :
  (d < 10)%N ->
  (Z.of_nat (nat_of_ascii (pretty_N_char d)) - 48)%Z = Z.of_N d.
Proof.
  intros Hd.
  assert (d = 0 \/ d = 1 \/ d = 2 \/ d = 3 \/ d = 4 \/ d = 5 \/ d = 6
          \/ d = 7 \/ d = 8 \/ d = 9)%N as H by lia.
  destruct H as [->|[->|[->|[->|[->|[->|[->|[->|[->| ->]]]]]]]]];
    reflexivity.
Qed.

Lemma pretty_N_go_digits (x : N) (s : string) (c : ascii) :
  hasByte c (pretty_N_go x s) = true ->
  isDigit c = true \/ hasByte c s = true.
Proof.
  revert s. induction (N.lt_wf_0 x) as [x _ IH]; intros s.
  destruct (decide (x = 0%N)) as [->|Hx].
  - rewrite pretty_N_go_0. by right.
  - rewrite pretty_N_go_step by lia. intros H.
    apply IH in H as [?|H]; [by left| |apply N.div_lt; lia].
    rewrite hasByte_cons in H. apply orb_true_iff in H as [H|?]; [|by right].
    apply Ascii.eqb_eq in H. subst c. left. apply isDigit_pretty_N_char.
Qed.

Lemma pretty_nat_digits (n : nat) (c : ascii) :
  hasByte c (pretty n) = true -> isDigit c = true.
Proof.
  unfold pretty, pretty_nat, pretty, pretty_N. case_decide as Hn.
  - rewrite hasByte_cons. simpl hasByte. rewrite orb_false_r.
    intros ->%Ascii.eqb_eq. reflexivity.
  - intros Hc. by apply pretty_N_go_digits in Hc as [?|?].
Qed.

Lemma digitsValue_pretty_N_go (x : N) (s : string) :
  digitsValue 0 (pretty_N_go x s) = digitsValue (Z.of_N x) s.
Proof.
  revert s. induction (N.lt_wf_0 x) as [x _ IH]; intros s.
  destruct (decide (x = 0%N)) as [->|Hx].
  - by rewrite pretty_N_go_0.
  - rewrite pretty_N_go_step by lia. rewrite IH by (apply N.div_lt; lia).
    simpl digitsValue.
    rewrite digit_of_pretty_N_char by (apply N.mod_lt; lia).
    f_equal. rewrite (N.div_mod x 10) at 3 by lia. lia.
Qed.

(** The decimal text of a number is read back as that number. *)
Lemma digitsValue_pretty (n : nat) : digitsValue 0 (pretty n) = Z.of_nat n.
Proof.
  unfold pretty, pretty_nat, pretty, pretty_N. case_decide as Hn.
  - assert (n = 0) as -> by lia. reflexivity.
  - rewrite digitsValue_pretty_N_go. simpl. lia.
Qed.

Lemma span_all (p : ascii -> bool) (l : string) :
  (forall d, hasByte d l = true -> p d = true) ->
  span p l = (l, EmptyString).
Proof.
  intros Hl. induction l as [|c l IH]; [done|].
  rewrite span_cons, (Hl c) by (by rewrite hasByte_cons, Ascii.eqb_refl).
  rewrite IH; [done|]. intros d Hd. apply Hl.
  rewrite hasByte_cons, Hd. by destruct (Ascii.eqb d c).
Qed.

Lemma span_line (l post : string) :
  hasByte newline l = false -> lineEnd post = true ->
  (span notNewline (l +:+ post)).1 = l.
Proof.
  intros Hl Hpost.
  assert (forall d, hasByte d l = true -> notNewline d = true) as Hall.
  { intros d Hd. unfold notNewline. destruct (Ascii.eqb d newline) eqn:E;
      [|done]. apply Ascii.eqb_eq in E. subst d. congruence. }
  destruct post as [|c post].
  - by rewrite append_nil_r, span_all.
  - simpl in Hpost. rewrite span_app; [done|done|].
    unfold notNewline. by rewrite Hpost.
Qed.

Lemma notColonHash_all (path : string) :
  hasByte ":" path = false -> hasByte "#" path = false ->
  forall d, hasByte d path = true -> notColonHash d = true.
Proof.
  intros Hc Hh d Hd. unfold notColonHash.
  destruct (Ascii.eqb d ":") eqn:E1.
  { apply Ascii.eqb_eq in E1. subst d. congruence. }
  destruct (Ascii.eqb d "#") eqn:E2; [|done].
  apply Ascii.eqb_eq in E2. subst d. congruence.
Qed.

Lemma span_digits (n : nat) (c : ascii) (rest : string) :
  isDigit c = false ->
  span isDigit (pretty n +:+ String c rest) = (pretty n, String c rest).
Proof. intros Hc. apply span_app; [apply pretty_nat_digits|done]. Qed.

Lemma matchErrorAt_format (path : string) (line : nat) (col : option nat)
    (msg post : string) :
  isEmpty path = false ->
  hasByte ":" path = false -> hasByte "#" path = false ->
  hasByte newline msg = false -> lineEnd post = true ->
  matchErrorAt (formatDiagnostic path line col msg +:+ post)
  = Some (mkErrorMatch path (pretty line)
            (option_map (fun c => pretty c +:+ ":") col) msg).
Proof.
  intros Hne Hc Hh Hmsg Hpost.
  assert (formatDiagnostic path line col msg +:+ post
          = path +:+ String ":" (pretty line +:+ String ":"
              (match col with
               | Some c => pretty c +:+ String ":" (String " " (msg +:+ post))
               | None => String " " (msg +:+ post)
               end))) as ->.
  { unfold formatDiagnostic. destruct col; by rewrite !append_assoc. }
  unfold matchErrorAt.
  rewrite span_app by (by apply notColonHash_all || done).
  cbn [fst snd]. rewrite Hne.
  change (stripPrefix ":" (String ":" ?x)) with (Some x).
  cbv beta iota. rewrite span_digits by done. cbn [fst snd].
  assert (isEmpty (pretty line) = false) as ->.
  { pose proof (pretty_nat_nonempty line). by destruct (pretty line). }
  change (stripPrefix ":" (String ":" ?x)) with (Some x). cbv beta iota.
  destruct col as [c|]; unfold matchColumn.
  - rewrite span_digits by done. cbn [fst snd].
    assert (isEmpty (pretty c) = false) as ->.
    { pose proof (pretty_nat_nonempty c). by destruct (pretty c). }
    change (stripPrefix ":" (String ":" ?x)) with (Some x). cbv beta iota.
    change (stripPrefix " " (String " " ?x)) with (Some x). cbv beta iota.
    by rewrite span_line.
  - rewrite span_cons. change (isDigit " ") with false. cbv iota.
    cbn [fst snd isEmpty].
    change (stripPrefix " " (String " " ?x)) with (Some x). cbv beta iota.
    by rewrite span_line.
Qed.

(** X8.  A diagnostic line made of a path without colon or hash, a line
    number, an optional column and a message is read back by
    [newCompileError] when it is the first line start that matches: the
    error has that path, that message, and that line number, or the
    largest [int] when the number does not fit. *)
Theorem newCompileError_roundtrip (w : World) (pre path : string)
    (line : nat) (col : option nat) (msg post : string) :
  isEmpty path = false ->
  hasByte ":" path = false -> hasByte "#" path = false ->
  hasByte newline msg = false -> lineEnd post = true ->
  noMatchBefore true pre (formatDiagnostic path line col msg +:+ post) = true ->
  endsAtLineStart true pre = true ->
  Error.Path
    (newCompileError w (pre +:+ formatDiagnostic path line col msg +:+ post)).2
    = path
  /\ Error.Line
       (newCompileError w
          (pre +:+ formatDiagnostic path line col msg +:+ post)).2
     = Z.min (Z.of_nat line) maxInt
  /\ Error.Description
       (newCompileError w
          (pre +:+ formatDiagnostic path line col msg +:+ post)).2
     = msg.
Proof.
  intros Hne Hc Hh Hmsg Hpost Hpre Hbol.
  assert (findError (pre +:+ formatDiagnostic path line col msg +:+ post)
          = Some (mkErrorMatch path (pretty line)
                    (option_map (fun c => pretty c +:+ ":") col) msg)) as Hm.
  { unfold findError. rewrite findErrorFrom_skip by done. rewrite Hbol.
    by apply findErrorFrom_here, matchErrorAt_format. }
  destruct (newCompileError_fields w _ _ Hm) as (-> & -> & ->).
  simpl. unfold Atoi. by rewrite digitsValue_pretty.
Qed.

Lemma newCompileError_roundtrip_witness :
  Error.Path
    (newCompileError quietWorld
       (headerLine +:+ formatDiagnostic "app/models/user.go" 118 None
                         "syntax error: unexpected }" +:+ nextLine)).2
    = "app/models/user.go"
  /\ Error.Line
       (newCompileError quietWorld
          (headerLine +:+ formatDiagnostic "app/models/user.go" 118 None
                            "syntax error: unexpected }" +:+ nextLine)).2
     = Z.min 118 maxInt
  /\ Error.Description
       (newCompileError quietWorld
          (headerLine +:+ formatDiagnostic "app/models/user.go" 118 None
                            "syntax error: unexpected }" +:+ nextLine)).2
     = "syntax error: unexpected }".
Proof.
  apply (newCompileError_roundtrip quietWorld headerLine
           "app/models/user.go" 118 None "syntax error: unexpected }"
           nextLine); vm_compute; reflexivity.
Defined.

Lemma matchErrorAt_group2 (s : string) (m : ErrorMatch) :
  matchErrorAt s = Some m -> exists r, group2 m = (span isDigit r).1.
Proof.
  unfold matchErrorAt. intros H.
  repeat case_match; simplify_eq; simpl; eauto.
Qed.

Lemma digitsValue_nonneg (s : string) (acc : Z) :
  (forall d, hasByte d s = true -> isDigit d = true) ->
  (0 <= acc)%Z -> (0 <= digitsValue acc s)%Z.
Proof.
  revert acc. induction s as [|c s IH]; intros acc Hs Hacc; [done|].
  simpl. apply IH.
  - intros d Hd. apply Hs. rewrite hasByte_cons, Hd.
    by destruct (Ascii.eqb d c).
  - assert (isDigit c = true) as Hc
      by (apply Hs; by rewrite hasByte_cons, Ascii.eqb_refl).
    unfold isDigit in Hc. apply andb_true_iff in Hc as [Hc _].
    apply Nat.leb_le in Hc. lia.
Qed.

(** X9.  The line of the error of [newCompileError] is never negative and
    never above the largest [int]; it is 0 when the error has no path. *)
Theorem newCompileError_line_bounds (w : World) (output : string) :
  (0 <= Error.Line (newCompileError w output).2 <= maxInt)%Z
  /\ (Error.Path (newCompileError w output).2 = EmptyString ->
      Error.Line (newCompileError w output).2 = 0%Z).
Proof.
  destruct (findError output) as [m|] eqn:Hm.
  - destruct (newCompileError_fields w output m Hm) as (-> & -> & _).
    apply findErrorFrom_match in Hm as (pre & rest & _ & _ & Hm).
    destruct (matchErrorAt_group1 rest m Hm) as [_ Hne].
    destruct (matchErrorAt_group2 rest m Hm) as [r Hg].
    split; [|intros Hp; by rewrite Hp in Hne].
    unfold Atoi. split; [|apply Z.le_min_r].
    apply Z.min_glb; [|done]. apply digitsValue_nonneg; [|done].
    intros d Hd. rewrite Hg in Hd. by apply span_fst_all in Hd.
  - unfold newCompileError. rewrite Hm. simpl. done.
Qed.

(** X10.  Every error of [newCompileError] has the same source type and
    title; it never has both a meta error and source lines; an error
    without path has neither, and has logged the raw output.  The source
    lines are those of the file when it can be read, and nothing is logged
    then.  The path, line and description do not depend on the file
    system: they are the same in any two worlds. *)
Theorem newCompileError_error_shape (w w' : World) (output : string) :
  Error.SourceType (newCompileError w output).2 = "Go code"
  /\ Error.Title (newCompileError w output).2 = "Go Compilation Error"
  /\ (Error.MetaError (newCompileError w output).2 = EmptyString
      \/ Error.SourceLines (newCompileError w output).2 = [])
  /\ (Error.Path (newCompileError w output).2 = EmptyString ->
      Error.SourceLines (newCompileError w output).2 = []
      /\ Error.MetaError (newCompileError w output).2 = EmptyString
      /\ (newCompileError w output).1
         = [Log ERROR
              (Sprintln ["Failed to parse build errors:" +:+ nl; output])])
  /\ (forall lines,
        ReadLines w
          (filepath_Abs w (Error.Path (newCompileError w output).2))
          = inr lines ->
        Error.Path (newCompileError w output).2 <> EmptyString ->
        Error.SourceLines (newCompileError w output).2 = lines
        /\ Error.MetaError (newCompileError w output).2 = EmptyString
        /\ (newCompileError w output).1 = [])
  /\ Error.Path (newCompileError w output).2
     = Error.Path (newCompileError w' output).2
  /\ Error.Line (newCompileError w output).2
     = Error.Line (newCompileError w' output).2
  /\ Error.Description (newCompileError w output).2
     = Error.Description (newCompileError w' output).2.
Proof.
  destruct (findError output) as [m|] eqn:Hm.
  - destruct (newCompileError_fields w output m Hm) as (Hp & Hl & Hd).
    destruct (newCompileError_fields w' output m Hm) as (Hp' & Hl' & Hd').
    rewrite Hp, Hl, Hd, Hp', Hl', Hd'.
    assert (group1 m <> EmptyString) as Hne.
    { apply findErrorFrom_match in Hm as (pre & rest & _ & _ & Hm').
      apply matchErrorAt_group1 in Hm' as [_ Hne]. by destruct (group1 m). }
    unfold newCompileError. rewrite Hm.
    destruct (ReadLines w (filepath_Abs w (group1 m))) as [err|lines] eqn:Hr;
      simpl.
    + split; [done|]. split; [done|]. split; [by right|].
      split; [done|]. split; [done|]. done.
    + split; [done|]. split; [done|]. split; [by left|].
      split; [done|]. split; [|done]. by intros lines' [= <-] _.
  - unfold newCompileError. rewrite Hm. simpl.
    split; [done|]. split; [done|]. split; [by left|].
    split; [done|]. split; [done|]. done.
Qed.

Lemma newCompileError_error_shape_witness :
  Error.SourceLines (newCompileError readableWorld diagLine).2
    = ["package controllers"; "func Index() {"]
  /\ Error.MetaError (newCompileError readableWorld diagLine).2 = EmptyString
  /\ (newCompileError readableWorld diagLine).1 = []
  /\ Error.Line (newCompileError readableWorld diagLine).2
     = Error.Line (newCompileError quietWorld diagLine).2.
Proof.
  destruct (newCompileError_error_shape readableWorld quietWorld diagLine)
    as (_ & _ & _ & _ & Hread & _ & Hline & _).
  destruct (Hread ["package controllers"; "func Index() {"])
    as (H1 & H2 & H3); [reflexivity|by vm_compute|].
  split; [exact H1|]. split; [exact H2|]. split; [exact H3|exact Hline].
Defined.

(** ** The missing-import pattern *)

Lemma stripPrefix_sound (lit s r : string) :
  stripPrefix lit s = Some r -> s = lit +:+ r.
Proof.
  revert s. induction lit as [|a lit IH]; intros s.
  - simpl. by intros [= ->].
  - destruct s as [|b s]; [done|]. simpl.
    destruct (Ascii.eqb a b) eqn:E; [|done].
    apply Ascii.eqb_eq in E. subst b. intros H.
    by rewrite append_cons, (IH s H).
Qed.

Lemma stripPrefix_app (lit r : string) : stripPrefix lit (lit +:+ r) = Some r.
Proof.
  induction lit as [|a lit IH]; [done|].
  rewrite append_cons. simpl. by rewrite Ascii.eqb_refl.
Qed.

Lemma matchImportErrorAt_sound (s p : string) :
  matchImportErrorAt s = Some p ->
  validPkgName p
  /\ exists post, s = importErrorPrefix +:+ p +:+ importErrorSuffix +:+ post.
Proof.
  unfold matchImportErrorAt.
  destruct (stripPrefix importErrorPrefix s) as [r|] eqn:E1; [|done].
  destruct (isEmpty (span _ r).1) eqn:E2; [done|].
  destruct (stripPrefix importErrorSuffix (span _ r).2) as [post|] eqn:E3;
    [|done].
  intros [= <-]. split; [split; [done|]|].
  - destruct (hasByte dquote (span _ r).1) eqn:E; [|done].
    apply span_fst_all in E. by rewrite Ascii.eqb_refl in E.
  - exists post. apply stripPrefix_sound in E1, E3.
    rewrite E1. f_equal. rewrite <- E3. apply span_append.
Qed.

Lemma matchImportErrorAt_complete (p post : string) :
  validPkgName p ->
  matchImportErrorAt (importErrorPrefix +:+ p +:+ importErrorSuffix +:+ post)
  = Some p.
Proof.
  intros [Hne Hq]. unfold matchImportErrorAt. rewrite stripPrefix_app.
  assert (span (fun c => negb (Ascii.eqb c dquote))
            (p +:+ importErrorSuffix +:+ post)
          = (p, importErrorSuffix +:+ post)) as ->.
  { unfold importErrorSuffix at 1. rewrite append_cons.
    apply span_app; [|by rewrite Ascii.eqb_refl].
    intros d Hd. destruct (Ascii.eqb d dquote) eqn:E; [|done].
    apply Ascii.eqb_eq in E. subst d. congruence. }
  cbn [fst snd]. by rewrite Hne, stripPrefix_app.
Qed.

Lemma findImportError_unfold (s : string) :
  findImportError s =
  match matchImportErrorAt s with
  | Some p => Some p
  | None =>
      match s with
      | EmptyString => None
      | String _ s' => findImportError s'
      end
  end.
Proof. by destruct s. Qed.

(** X11.  [findImportError] finds a package exactly when the output holds
    the phrase import, quote, name, quote, cannot find package, with a
    name that is not empty and has no quote; the package it returns is
    such a name, taken from such a phrase of the output. *)
Theorem findImportError_phrase (output : string) :
  (forall p, findImportError output = Some p ->
     validPkgName p
     /\ exists pre post,
          output
          = pre +:+ importErrorPrefix +:+ p +:+ importErrorSuffix +:+ post)
  /\ (forall pre p post,
        validPkgName p ->
        output = pre +:+ importErrorPrefix +:+ p +:+ importErrorSuffix +:+ post ->
        is_Some (findImportError output))
  /\ (hasByte dquote output = false -> findImportError output = None).
Proof.
  assert (forall s p, findImportError s = Some p ->
            validPkgName p
            /\ exists pre post,
                 s = pre +:+ importErrorPrefix +:+ p +:+ importErrorSuffix
                       +:+ post) as Hsound.
  { intros s. induction s as [|c s IH]; intros p; rewrite findImportError_unfold.
    - destruct (matchImportErrorAt EmptyString) eqn:E; [|done].
      by vm_compute in E.
    - destruct (matchImportErrorAt (String c s)) as [p'|] eqn:E.
      + intros [= ->].
        destruct (matchImportErrorAt_sound _ _ E) as [Hv [post Hs]].
        split; [done|]. exists EmptyString, post. by rewrite append_nil.
      + intros H. destruct (IH p H) as [Hv (pre & post & ->)].
        split; [done|]. exists (String c pre), post. by rewrite append_cons. }
  split; [apply Hsound|]. split.
  - intros pre p post Hv ->. induction pre as [|c pre IH].
    + rewrite append_nil, findImportError_unfold.
      rewrite matchImportErrorAt_complete by done. eauto.
    + rewrite append_cons, findImportError_unfold.
      destruct (matchImportErrorAt _); eauto.
  - intros Hq. destruct (findImportError output) as [p|] eqn:E; [|done].
    destruct (Hsound _ _ E) as [_ (pre & post & ->)].
    exfalso. clear E Hsound. induction pre as [|c pre IH].
    + by vm_compute in Hq.
    + rewrite append_cons, hasByte_cons in Hq.
      apply orb_false_iff in Hq as [_ Hq]. auto.
Qed.

(** ** Build, beyond the claims *)

Section LoopOutcome.
Context (w : World) (goPath buildTags binName : string).

Local Abbreviation args := (buildArgs w goPath buildTags binName).

(** A turn that ends the call returns the binary after a build that
    succeeded and the error of the build output otherwise. *)
Lemma Build_iteration_outcome (gotten : gmap string unit) (k : nat)
    (o : Outcome) :
  (Build_iteration w goPath buildTags binName gotten k).2 = inl o ->
  ((CombinedOutput w k args).2 = true /\ o = Built binName)
  \/ ((CombinedOutput w k args).2 = false
      /\ o = Failed (newCompileError w (CombinedOutput w k args).1).2).
Proof.
  rewrite Build_iteration_eq. simpl.
  destruct (CombinedOutput w k args) as [output ok]. simpl.
  destruct ok; [intros [= <-]; by left|].
  destruct (findImportError output) as [p|].
  - destruct (gotten !! p); [intros [= <-]; by right|].
    destruct (CombinedOutput w (S k) (getArgs goPath p)) as [gout gok].
    simpl. destruct gok; [done|]. intros [= <-]. by right.
  - intros [= <-]. by right.
Qed.

Opaque Build_iteration.

Lemma Build_loop_outcome (fuel : nat) (gotten : gmap string unit) (k : nat)
    (tr : list Event) (o : Outcome) :
  Build_loop fuel w goPath buildTags binName gotten k = Some (tr, o) ->
  ((CombinedOutput w (k + 2 * (buildCount tr - 1)) args).2 = true
   /\ o = Built binName)
  \/ ((CombinedOutput w (k + 2 * (buildCount tr - 1)) args).2 = false
      /\ o = Failed
               (newCompileError w
                  (CombinedOutput w (k + 2 * (buildCount tr - 1)) args).1).2).
Proof.
  revert gotten k tr o. induction fuel as [|fuel IH]; intros gotten k tr o;
    [done|].
  rewrite Build_loop_S.
  destruct (Build_iteration w goPath buildTags binName gotten k).2
    as [o'|[gotten' k']] eqn:Eit.
  - intros [= <- <-].
    destruct (Build_iteration_stop w goPath buildTags binName gotten k o' Eit)
      as [Hb _].
    unfold buildCount. rewrite Hb. simpl. rewrite Nat.add_0_r.
    by apply (Build_iteration_outcome gotten k).
  - destruct (Build_iteration_continue w goPath buildTags binName
                gotten gotten' k k' Eit)
      as (p & _ & _ & _ & _ & -> & -> & Hb & _).
    destruct (Build_loop fuel w goPath buildTags binName (<[p:=tt]> gotten)
                (S (S k))) as [[evs o']|] eqn:Eloop; [|done].
    intros [= <- <-].
    destruct (Build_loop_safe w goPath buildTags binName _ _ _ _ _ Eloop)
      as (_ & _ & _ & Hcnt & _).
    assert (buildCount (Build_iteration w goPath buildTags binName gotten k).1
            = 1) as Hone by (unfold buildCount; by rewrite Hb).
    rewrite buildCount_app, Hone.
    replace (k + 2 * (1 + buildCount evs - 1))
      with (S (S k) + 2 * (buildCount evs - 1)) by lia.
    by apply (IH _ _ _ _ Eloop).
Qed.

Lemma runIterations_fetched (j : nat) (gotten : gmap string unit) (k : nat)
    (evs : list Event) (st : gmap string unit * nat) :
  runIterations j w goPath buildTags binName gotten k = Some (evs, st) ->
  length (fetched evs) = j.
Proof.
  revert gotten k evs. induction j as [|j IH]; intros gotten k evs.
  - simpl. by intros [= <- <-].
  - simpl.
    destruct (Build_iteration w goPath buildTags binName gotten k).2
      as [o'|[g1 k1]] eqn:Eit; [done|].
    destruct (Build_iteration_continue w goPath buildTags binName
                gotten g1 k k1 Eit)
      as (p & _ & _ & _ & _ & -> & -> & _ & Hf).
    destruct (runIterations j w goPath buildTags binName (<[p:=tt]> gotten)
                (S (S k))) as [[evs1 st1]|] eqn:Erun; [|done].
    intros [= <- <-]. rewrite fetched_app, Hf. simpl.
    by rewrite (IH _ _ _ Erun).
Qed.

Transparent Build_iteration.

End LoopOutcome.

Lemma Build_toolchain_binName (w : World) (goPath buildTags binName : string) :
  (Build_toolchain w).2 = inr (goPath, buildTags, binName) ->
  exec_LookPath w "go" = inr goPath
  /\ buildTags = default EmptyString (Config_String w "build.tags")
  /\ exists binDir,
       build_Import w (ImportPath w) = inr binDir
       /\ binName
          = (if String.eqb (GOOS w) "windows"
             then path_Join w [binDir; path_Base w (BasePath w)] +:+ ".exe"
             else path_Join w [binDir; path_Base w (BasePath w)]).
Proof.
  unfold Build_toolchain.
  destruct (exec_LookPath w "go") as [e|gp]; [done|].
  destruct (build_Import w (ImportPath w)) as [e|binDir]; [done|].
  simpl. intros [= <- <- <-]. split; [done|]. split; [done|]. eauto.
Qed.

Lemma Build_setup_cases (w : World) (src0 : SourceInfo.t) :
  (exists tr msg,
     Build_setup w src0 = (tr ++ [Log ERROR msg], inl Exited)
     /\ execs tr = []
     /\ forall path, Close path ∉ tr)
  \/ (os_Mkdir w (tmpPath w) = None /\ os_Create w (mainGo w) = None
      /\ file_WriteString w (mainGo w)
           (registerControllerSource w (addDbImport w src0)) = None
      /\ (Build_setup w src0).2 = (Build_toolchain w).2
      /\ exists x, (Build_toolchain w).2 = inr x).
Proof.
  pose proof (Build_prepare_eq w
                (registerControllerSource w (addDbImport w src0))) as Hprep.
  assert (execs (removeLog w) = [] /\ forall path, Close path ∉ removeLog w)
    as [Hrm Hrmc].
  { unfold removeLog. destruct (os_RemoveAll w (tmpPath w)); split; try done;
      intros path; set_solver. }
  destruct (os_Mkdir w (tmpPath w)) as [err|].
  { left. apply Build_setup_prepare_stops in Hprep.
    exists (RemoveAll (tmpPath w) :: removeLog w ++ [Mkdir (tmpPath w)]). eexists.
    split; [rewrite Hprep; simpl; by rewrite <- app_assoc|].
    split; [simpl; by rewrite execs_app, Hrm|].
    intros path. specialize (Hrmc path). set_solver. }
  destruct (os_Create w (mainGo w)) as [err|].
  { left. apply Build_setup_prepare_stops in Hprep.
    exists (RemoveAll (tmpPath w) :: removeLog w
              ++ [Mkdir (tmpPath w); Create (mainGo w)]). eexists.
    split; [rewrite Hprep; simpl; by rewrite <- app_assoc|].
    split; [simpl; by rewrite execs_app, Hrm|].
    intros path. specialize (Hrmc path). set_solver. }
  destruct (file_WriteString w (mainGo w) _) as [err|].
  { left. apply Build_setup_prepare_stops in Hprep.
    exists (RemoveAll (tmpPath w) :: removeLog w
              ++ [Mkdir (tmpPath w); Create (mainGo w);
                  WriteString (mainGo w)
                    (registerControllerSource w (addDbImport w src0))]). eexists.
    split; [rewrite Hprep; simpl; by rewrite <- app_assoc|].
    split; [simpl; by rewrite execs_app, Hrm|].
    intros path. specialize (Hrmc path). set_solver. }
  apply Build_setup_prepare_done in Hprep as [Htr Hres].
  unfold Build_toolchain in *.
  destruct (exec_LookPath w "go") as [e|gp].
  { left.
    exists (RemoveAll (tmpPath w) :: removeLog w
              ++ [Mkdir (tmpPath w); Create (mainGo w);
                  WriteString (mainGo w)
                    (registerControllerSource w (addDbImport w src0))]),
      "Go executable not found in PATH.".
    split.
    - apply injective_projections; [by rewrite Htr|by rewrite Hres].
    - split; [simpl; by rewrite execs_app, Hrm|].
      intros path. specialize (Hrmc path). set_solver. }
  destruct (build_Import w (ImportPath w)) as [e|binDir].
  { left.
    exists (RemoveAll (tmpPath w) :: removeLog w
              ++ [Mkdir (tmpPath w); Create (mainGo w);
                  WriteString (mainGo w)
                    (registerControllerSource w (addDbImport w src0))]),
      (Sprintln ["Failure importing"; ImportPath w]).
    split.
    - apply injective_projections; [by rewrite Htr|by rewrite Hres].
    - split; [simpl; by rewrite execs_app, Hrm|].
      intros path. specialize (Hrmc path). set_solver. }
  right. split; [done|]. split; [done|]. split; [done|].
  split; [done|]. simpl. eauto.
Qed.

Lemma newCompileError_no_close (w : World) (output path : string) :
  Close path ∉ (newCompileError w output).1.
Proof.
  unfold newCompileError. destruct (findError output); [|set_solver].
  destruct (ReadLines w _); set_solver.
Qed.

Lemma Build_iteration_no_close (w : World) (goPath buildTags binName : string)
    (gotten : gmap string unit) (k : nat) (path : string) :
  Close path ∉ (Build_iteration w goPath buildTags binName gotten k).1.
Proof.
  rewrite Build_iteration_eq. cbv zeta.
  pose proof (newCompileError_no_close w) as Hnce.
  destruct (CombinedOutput w k _) as [output ok]. cbn [fst snd].
  specialize (Hnce output path).
  destruct ok; [set_solver|].
  destruct (findImportError output) as [p|]; [|set_solver].
  destruct (gotten !! p); [set_solver|].
  destruct (CombinedOutput w (S k) _) as [gout gok]. cbn [fst snd].
  destruct gok; set_solver.
Qed.

Lemma Build_loop_no_close (w : World) (goPath buildTags binName : string)
    (fuel : nat) (gotten : gmap string unit) (k : nat) (evs : list Event)
    (o : Outcome) (path : string) :
  Build_loop fuel w goPath buildTags binName gotten k = Some (evs, o) ->
  Close path ∉ evs.
Proof.
  revert gotten k evs o. induction fuel as [|fuel IH]; intros gotten k evs o;
    [done|].
  rewrite Build_loop_S.
  pose proof (Build_iteration_no_close w goPath buildTags binName gotten k
                path) as Hit.
  destruct (Build_iteration w goPath buildTags binName gotten k).2
    as [o'|[gotten' k']].
  - by intros [= <- <-].
  - destruct (Build_loop fuel w goPath buildTags binName gotten' k')
      as [[evs' o']|] eqn:E; [|done].
    intros [= <- <-]. specialize (IH _ _ _ _ E). set_solver.
Qed.

Lemma Build_cases (fuel : nat) (w : World) (tr : list Event) (o : Outcome) :
  Build fuel w = Some (tr, o) ->
  (exists e, ProcessSource w = inl e /\ tr = [] /\ o = Failed e)
  \/ (exists src0 tr' msg,
        ProcessSource w = inr src0
        /\ Build_setup w src0 = (tr' ++ [Log ERROR msg], inl Exited)
        /\ tr = tr' ++ [Log ERROR msg] /\ o = Exited
        /\ execs tr' = [] /\ forall path, Close path ∉ tr')
  \/ (exists src0 goPath buildTags binName evs,
        ProcessSource w = inr src0
        /\ os_Mkdir w (tmpPath w) = None /\ os_Create w (mainGo w) = None
        /\ file_WriteString w (mainGo w)
             (registerControllerSource w (addDbImport w src0)) = None
        /\ (Build_toolchain w).2 = inr (goPath, buildTags, binName)
        /\ (Build_setup w src0).2 = inr (goPath, buildTags, binName)
        /\ Build_loop fuel w goPath buildTags binName ∅ 0 = Some (evs, o)
        /\ tr = (Build_setup w src0).1 ++ evs ++ [Close (mainGo w)]).
Proof.
  intros Hrun. destruct (ProcessSource w) as [e|src0] eqn:Hs.
  { left. unfold Build in Hrun. rewrite Hs in Hrun.
    injection Hrun as <- <-. eauto. }
  right.
  destruct (Build_setup_cases w src0)
    as [(tr' & msg & Hset & Hex & Hcl)
       |(Hmk & Hcr & Hwr & Hres & [[gp bt] bn] & Htc)].
  - left. rewrite (Build_setup_stops fuel w src0 Exited Hs) in Hrun
      by (by rewrite Hset).
    rewrite Hset in Hrun. injection Hrun as <- <-.
    exists src0, tr', msg. done.
  - right. rewrite Htc in Hres.
    rewrite (Build_runs_loop fuel w src0 gp bt bn Hs Hres) in Hrun.
    destruct (Build_loop fuel w gp bt bn ∅ 0) as [[evs o']|] eqn:Eloop;
      [|done].
    injection Hrun as <- <-. exists src0, gp, bt, bn, evs. done.
Qed.

(** X12.  When [Build] has run a build command, its result is decided by
    the last build it ran: the binary when that build succeeded, and
    otherwise the error that [newCompileError] makes of the output of that
    build.  The binary is named after the base path, in the bin directory
    of the import path, with the suffix .exe on windows. *)
Theorem Build_last_build_decides (w : World) (fuel : nat) (tr : list Event)
    (o : Outcome) :
  Build fuel w = Some (tr, o) -> 1 <= buildCount tr ->
  exists goPath buildTags binDir,
    exec_LookPath w "go" = inr goPath
    /\ buildTags = default EmptyString (Config_String w "build.tags")
    /\ build_Import w (ImportPath w) = inr binDir
    /\ forall binName,
         binName
         = (if String.eqb (GOOS w) "windows"
            then path_Join w [binDir; path_Base w (BasePath w)] +:+ ".exe"
            else path_Join w [binDir; path_Base w (BasePath w)]) ->
         ((CombinedOutput w (2 * (buildCount tr - 1))
             (buildArgs w goPath buildTags binName)).2 = true
          /\ o = Built binName)
         \/ ((CombinedOutput w (2 * (buildCount tr - 1))
                (buildArgs w goPath buildTags binName)).2 = false
             /\ o = Failed
                      (newCompileError w
                         (CombinedOutput w (2 * (buildCount tr - 1))
                            (buildArgs w goPath buildTags binName)).1).2).
Proof.
  intros Hrun Hcnt.
  destruct (Build_cases fuel w tr o Hrun)
    as [(e & _ & -> & _)
       |[(src0 & tr' & msg & _ & _ & -> & _ & Hex & _)
        |(src0 & gp & bt & bn & evs & Hs & _ & _ & _ & Htc & Hres & Hloop
          & ->)]].
  - unfold buildCount in Hcnt. simpl in Hcnt. lia.
  - unfold buildCount, builds in Hcnt. rewrite execs_app, Hex in Hcnt.
    simpl in Hcnt. lia.
  - destruct (Build_toolchain_binName w gp bt bn Htc)
      as (Hgo & Hbt & binDir & Himp & Hbn).
    exists gp, bt, binDir. split; [done|]. split; [done|]. split; [done|].
    intros binName ->. rewrite <- Hbn.
    destruct (builds_around (Build_setup w src0).1 evs (mainGo w)
                (Build_setup_execs w src0)) as (_ & _ & ->).
    apply (Build_loop_outcome w gp bt bn fuel ∅ 0 evs o Hloop).
Qed.

Lemma Build_last_build_decides_witness :
  exists tr o,
    Build 2 movedWorld = Some (tr, o)
    /\ buildCount tr = 2
    /\ o = Failed (newCompileError movedWorld
                     (movedOutput "github.com/lib/pq")).2.
Proof.
  assert (exists tr o, Build 2 movedWorld = Some (tr, o) /\ buildCount tr = 2)
    as (tr & o & Hrun & Hcnt)
    by (eexists _, _; split; vm_compute; reflexivity).
  exists tr, o. split; [exact Hrun|]. split; [exact Hcnt|].
  destruct (Build_last_build_decides movedWorld 2 tr o Hrun)
    as (gp & bt & binDir & Hgo & Hbt & Himp & Hlast); [lia|].
  injection Hgo as <-. injection Himp as <-. subst bt.
  rewrite Hcnt in Hlast.
  destruct (Hlast _ eq_refl) as [[Hok _]|[_ Ho]]; [by vm_compute in Hok|].
  exact Ho.
Defined.

(** X13.  When the first [j] builds of a call each failed on a missing
    package that was then fetched, and the next build succeeds, [Build]
    returns the binary after [j + 1] builds and [j] fetches, all of
    different packages: one missing package, fetched, then a clean build,
    is two builds. *)
Theorem Build_fetch_then_built (w : World) (src0 : SourceInfo.t)
    (goPath buildTags binName : string) (j : nat) (evs : list Event)
    (st : gmap string unit * nat) :
  ProcessSource w = inr src0 ->
  (Build_setup w src0).2 = inr (goPath, buildTags, binName) ->
  runIterations j w goPath buildTags binName ∅ 0 = Some (evs, st) ->
  (CombinedOutput w (2 * j) (buildArgs w goPath buildTags binName)).2 = true ->
  exists tr,
    (forall fuel, j < fuel -> Build fuel w = Some (tr, Built binName))
    /\ buildCount tr = S j
    /\ length (fetched tr) = j
    /\ NoDup (fetched tr).
Proof.
  intros Hs Hpre Hrun Hok. destruct st as [gotten k].
  destruct (runIterations_inv w goPath buildTags binName j ∅ 0 evs gotten k
              Hrun) as (Hk & Hcnt & Hnd & _).
  simpl in Hk. subst k.
  pose proof (runIterations_fetched w goPath buildTags binName j ∅ 0 evs _
                Hrun) as Hlen.
  pose proof (Build_iteration_eq w goPath buildTags binName gotten (2 * j))
    as Hit.
  cbv zeta in Hit. rewrite Hok in Hit.
  exists ((Build_setup w src0).1
          ++ (evs ++ buildEvents (buildArgs w goPath buildTags binName))
          ++ [Close (mainGo w)]).
  destruct (builds_around (Build_setup w src0).1
              (evs ++ buildEvents (buildArgs w goPath buildTags binName))
              (mainGo w) (Build_setup_execs w src0)) as (_ & Hfa & Hca).
  rewrite Hfa, Hca, buildCount_app, fetched_app, Hcnt.
  split; [|split; [|split]].
  - intros fuel Hfuel.
    rewrite (Build_runs_loop fuel w src0 goPath buildTags binName Hs Hpre).
    replace fuel with (j + S (fuel - S j)) by lia.
    rewrite (Build_loop_after w goPath buildTags binName j _ ∅ 0 evs
               (gotten, 2 * j) Hrun).
    cbn [fst snd]. rewrite Build_loop_S. by rewrite Hit.
  - unfold buildCount, builds. simpl. lia.
  - unfold fetched at 2. simpl. rewrite app_nil_r. done.
  - unfold fetched at 2. simpl. by rewrite app_nil_r.
Qed.

Lemma Build_fetch_then_built_witness :
  exists tr,
    Build 3 twoMissingWorld = Some (tr, Built "/gopath/bin/sample")
    /\ buildCount tr = 3 /\ length (fetched tr) = 2.
Proof.
  edestruct (Build_fetch_then_built twoMissingWorld emptySource "/usr/bin/go"
               EmptyString "/gopath/bin/sample" 2)
    as (tr & Hrun & Hcnt & Hlen & _);
    [reflexivity|vm_compute; reflexivity|vm_compute; reflexivity
    |vm_compute; reflexivity|].
  exists tr. split; [apply Hrun; lia|]. split; [exact Hcnt|exact Hlen].
Defined.

(** X14.  [Build] runs a command only after the sources were analysed, the
    scratch directory made, main.go created and the generated source
    written to it without error, and the go executable and the package
    found; the write comes before every command. *)
Theorem Build_commands_after_prepare (w : World) (fuel : nat)
    (tr : list Event) (o : Outcome) :
  Build fuel w = Some (tr, o) -> execs tr <> [] ->
  exists src0,
    ProcessSource w = inr src0
    /\ os_Mkdir w (tmpPath w) = None
    /\ os_Create w (mainGo w) = None
    /\ file_WriteString w (mainGo w)
         (registerControllerSource w (addDbImport w src0)) = None
    /\ (exists goPath, exec_LookPath w "go" = inr goPath)
    /\ (exists binDir, build_Import w (ImportPath w) = inr binDir)
    /\ exists before after,
         tr = before ++ after /\ execs before = []
         /\ WriteString (mainGo w)
              (registerControllerSource w (addDbImport w src0)) ∈ before.
Proof.
  intros Hrun Hex.
  destruct (Build_cases fuel w tr o Hrun)
    as [(e & _ & -> & _)
       |[(src0 & tr' & msg & _ & _ & -> & _ & Hex' & _)
        |(src0 & gp & bt & bn & evs & Hs & Hmk & Hcr & Hwr & Htc & Hres
          & Hloop & ->)]].
  - done.
  - rewrite execs_app, Hex' in Hex. done.
  - exists src0. split; [done|]. split; [done|]. split; [done|].
    split; [done|].
    destruct (Build_toolchain_binName w gp bt bn Htc)
      as (Hgo & _ & binDir & Himp & _).
    split; [eauto|]. split; [eauto|].
    exists (Build_setup w src0).1, (evs ++ [Close (mainGo w)]).
    split; [done|]. split; [apply Build_setup_execs|].
    pose proof (Build_prepare_eq w
                  (registerControllerSource w (addDbImport w src0))) as Hprep.
    rewrite Hmk, Hcr, Hwr in Hprep.
    apply Build_setup_prepare_done in Hprep as [-> _].
    apply elem_of_app. left. apply elem_of_cons. right.
    apply elem_of_app. right. set_solver.
Qed.

Lemma Build_commands_after_prepare_witness :
  os_Mkdir twoMissingWorld (tmpPath twoMissingWorld) = None
  /\ os_Create twoMissingWorld (mainGo twoMissingWorld) = None.
Proof.
  assert (exists tr o, Build 3 twoMissingWorld = Some (tr, o)
                       /\ execs tr <> [])
    as (tr & o & Hrun & Hex)
    by (eexists _, _; split; [vm_compute; reflexivity|by vm_compute]).
  destruct (Build_commands_after_prepare twoMissingWorld 3 tr o Hrun Hex)
    as (src0 & _ & Hmk & Hcr & _).
  split; [exact Hmk|exact Hcr].
Defined.

(** X15.  When the sources cannot be analysed, [Build] returns the error
    of the analysis and does nothing else.  When the process exits, no
    command was run, the file was not closed and the last event is the
    error logged.  When [Build] returns after the analysis succeeded, the
    last event is the close of main.go, and it is the only one. *)
Theorem Build_exit_or_close (w : World) (fuel : nat) (tr : list Event)
    (o : Outcome) :
  Build fuel w = Some (tr, o) ->
  (forall e, ProcessSource w = inl e -> tr = [] /\ o = Failed e)
  /\ (o = Exited ->
      execs tr = []
      /\ (forall path, Close path ∉ tr)
      /\ exists tr' msg, tr = tr' ++ [Log ERROR msg])
  /\ (o <> Exited -> (exists src0, ProcessSource w = inr src0) ->
      exists tr',
        tr = tr' ++ [Close (mainGo w)] /\ forall path, Close path ∉ tr').
Proof.
  intros Hrun.
  destruct (Build_cases fuel w tr o Hrun)
    as [(e & Hs & -> & ->)
       |[(src0 & tr' & msg & Hs & _ & -> & -> & Hex & Hcl)
        |(src0 & gp & bt & bn & evs & Hs & Hmk & Hcr & Hwr & Htc & Hres
          & Hloop & ->)]].
  - split; [|split].
    + intros e' He'. rewrite Hs in He'. by injection He' as ->.
    + done.
    + intros _ [src0 Hs']. congruence.
  - split; [intros e He; congruence|]. split; [|done].
    intros _. split; [by rewrite execs_app, Hex|]. split; [|eauto].
    intros path [Hin|Hin]%elem_of_app; [by apply (Hcl path)|].
    by apply list_elem_of_singleton in Hin.
  - assert (o <> Exited) as Hne.
    { destruct (Build_loop_outcome w gp bt bn fuel ∅ 0 evs o Hloop)
        as [[_ ->]|[_ ->]]; done. }
    split; [intros e He; congruence|]. split; [done|].
    intros _ _. exists ((Build_setup w src0).1 ++ evs).
    split; [by rewrite <- app_assoc|].
    intros path [Hin|Hin]%elem_of_app;
      [|by apply (Build_loop_no_close w gp bt bn fuel ∅ 0 evs o path Hloop)].
    pose proof (Build_prepare_eq w
                  (registerControllerSource w (addDbImport w src0))) as Hprep.
    rewrite Hmk, Hcr, Hwr in Hprep.
    apply Build_setup_prepare_done in Hprep as [Htr _].
    rewrite Htr in Hin. revert Hin. unfold removeLog, Build_toolchain.
    destruct (os_RemoveAll w (tmpPath w)), (exec_LookPath w "go");
      try destruct (build_Import w (ImportPath w)); set_solver.
Qed.

(** X16.  Every package that [Build] fetches is a name found in the output
    of a failed build: it is not empty and holds no quote. *)
Theorem Build_fetch_names (w : World) (fuel : nat) (tr : list Event)
    (o : Outcome) (p : string) :
  Build fuel w = Some (tr, o) -> p ∈ fetched tr ->
  validPkgName p
  /\ exists i args pre post,
       builds tr !! i = Some args
       /\ (CombinedOutput w (2 * i) args).2 = false
       /\ (CombinedOutput w (2 * i) args).1
          = pre +:+ importErrorPrefix +:+ p +:+ importErrorSuffix +:+ post.
Proof.
  intros Hrun Hp.
  destruct (Build_safe w fuel tr o Hrun) as (_ & Hrep & _).
  destruct (Hrep p Hp) as (i & args & Hb & Hr & Hf).
  destruct (proj1 (findImportError_phrase _) p Hf) as [Hv (pre & post & Hout)].
  split; [done|]. exists i, args, pre, post. done.
Qed.

Lemma Build_fetch_names_witness :
  validPkgName "code.google.com/p/go.net".
Proof.
  assert (exists tr o, Build 3 twoMissingWorld = Some (tr, o)
                       /\ "code.google.com/p/go.net" ∈ fetched tr)
    as (tr & o & Hrun & Hin).
  { eexists _, _. split; [vm_compute; reflexivity|].
    vm_compute. set_solver. }
  exact (proj1 (Build_fetch_names twoMissingWorld 3 tr o _ Hrun Hin)).
Defined.

Lemma Build_exit_or_close_witness :
  exists tr,
    Build 1 noDirWorld = Some (tr, Exited) /\ execs tr = []
    /\ forall path, Close path ∉ tr.
Proof.
  assert (exists tr, Build 1 noDirWorld = Some (tr, Exited)) as [tr Hrun]
    by (eexists; vm_compute; reflexivity).
  destruct (Build_exit_or_close noDirWorld 1 tr Exited Hrun)
    as (_ & Hexit & _).
  destruct (Hexit eq_refl) as (Hex & Hcl & _).
  exists tr. split; [exact Hrun|]. split; [exact Hex|exact Hcl].
Defined.

(** ** The import lines of the generated source *)

Lemma keyLe_total : Total keyLe.
Proof.
  intros a b. unfold keyLe.
  destruct (String.leb_total a.1 b.1) as [-> | ->]; [by left|by right].
Qed.

Lemma keyLe_trans : Transitive keyLe.
Proof.
  intros a b c. unfold keyLe.
  apply (transitivity (R := String.le) (x := a.1) (y := b.1) (z := c.1)).
Qed.

(** X17.  The import block of the generated source is made of the lines of
    the entries of the alias table in increasing order of the import
    paths, whatever list of the entries in that order is taken: there is
    one line for each entry and no other, and no import path is imported
    twice. *)
Theorem renderImports_entries (m : gmap string string) :
  (forall l, l ≡ₚ map_to_list m -> Sorted keyLe l ->
     renderImports m
     = foldr (fun kv acc => importLine kv +:+ acc) EmptyString l)
  /\ (forall k v, (k, v) ∈ sortedEntries m <-> m !! k = Some v)
  /\ Sorted keyLe (sortedEntries m)
  /\ NoDup (sortedEntries m).*1
  /\ length (sortedEntries m) = size m.
Proof.
  assert (sortedEntries m ≡ₚ map_to_list m) as Hperm
    by apply merge_sort_Permutation.
  assert (Sorted keyLe (sortedEntries m)) as Hsorted
    by apply (Sorted_merge_sort keyLe (Total0 := keyLe_total)).
  split; [|split; [|split; [|split]]].
  - intros l Hl Hs. unfold renderImports. f_equal.
    apply (Sorted_unique_strong keyLe (Transitive0 := keyLe_trans));
      [|done|done|by rewrite Hl].
    intros [k1 v1] [k2 v2] H1 H2 H12 H21.
    rewrite Hperm in H1. rewrite Hl in H2.
    apply elem_of_map_to_list in H1, H2.
    assert (k1 = k2) as ->
      by (apply (anti_symm String.le); [exact H12|exact H21]).
    congruence.
  - intros k v. rewrite Hperm. apply elem_of_map_to_list.
  - done.
  - rewrite Hperm. apply NoDup_fst_map_to_list.
  - rewrite Hperm. apply length_map_to_list.
Qed.
